(** * Document-to-retrieval pipeline: a shallow embedding

    The development follows the Python sources of the pipeline:

    - [backend/services/pdf_processor.py]  (class [PDFProcessor]):
      [clean_text], [extract_text_from_pdf], [chunk_text],
      [_get_page_for_position];
    - [backend/services/vectorizer.py]     (class [Vectorizer]):
      [add_documents];
    - [python/backend/services/rag_service.py]  (class [RAGService]):
      [query].

    Line numbers in the comments are those of these files.

    Python [int] is [Z]; a Python [str] handled character by character
    (cleaning, chunking) is a [list ascii] of one-byte code points; a [str]
    that is only copied and concatenated (file names, result texts) is a
    [string]; [float] is IEEE-754 binary64 as [spec_float]; [None]-able
    values are [option]; the [while] loop of [chunk_text] is a body function
    iterated under a fuel counter. *)

From Stdlib Require Import ZArith Ascii String List Lia Bool.
From Stdlib Require Import SpecFloat.
From stdpp Require Import base tactics option list gmap strings pretty.

Local Open Scope Z_scope.

(** ** Python string primitives *)

Module Py.

Abbreviation str := (list ascii).

(** A string literal as a sequence of characters. *)
Definition s (x : string) : str := list_ascii_of_string x.

Definition len (t : str) : Z := Z.of_nat (length t).

(** Index normalisation of a slice bound ([PySlice_AdjustIndices], step 1):
    a negative bound counts from the end, and every bound is clipped to
    [0 .. len]. *)
Definition adjust_index (n i : Z) : Z :=
  if i <? 0 then Z.max 0 (i + n) else Z.min i n.

(** [t[lo:hi]] *)
Definition slice (t : str) (lo hi : Z) : str :=
  let lo' := adjust_index (len t) lo in
  let hi' := adjust_index (len t) hi in
  take (Z.to_nat (hi' - lo')) (drop (Z.to_nat lo') t).

(** Highest position of [c] in [t], the head of [t] having position [i];
    [-1] when [c] does not occur. *)
Fixpoint rindex (c : ascii) (t : str) (i : Z) : Z :=
  match t with
  | [] => -1
  | x :: t' =>
      let r := rindex c t' (i + 1) in
      if 0 <=? r then r else if Ascii.eqb x c then i else -1
  end.

(** [t.rfind(c, lo, hi)] for a one-character needle. *)
Definition rfind (c : ascii) (t : str) (lo hi : Z) : Z :=
  rindex c (slice t lo hi) (adjust_index (len t) lo).

(** [c.isspace()], which is also what [\s] matches in a [str] pattern:
    TAB..CR, FS..US, SPACE, NEL and NBSP among the one-byte code points. *)
Definition isspace (c : ascii) : bool :=
  let n := Z.of_nat (nat_of_ascii c) in
  ((9 <=? n) && (n <=? 13)) || ((28 <=? n) && (n <=? 32))
  || (n =? 133) || (n =? 160).

Fixpoint lstrip (t : str) : str :=
  match t with
  | [] => []
  | c :: t' => if isspace c then lstrip t' else t
  end.

Definition rstrip (t : str) : str := rev (lstrip (rev t)).

(** [t.strip()] *)
Definition strip (t : str) : str := rstrip (lstrip t).

(** Truth value of a [str]: non-empty. *)
Definition truthy (t : str) : bool :=
  match t with [] => false | _ => true end.

(** The last position of [c] in the window [lo <= p < hi] of [t]. *)
Definition last_in (c : ascii) (t : str) (lo hi p : Z) : Prop :=
  lo <= p < hi /\ t !! Z.to_nat p = Some c
  /\ forall q, p < q < hi -> t !! Z.to_nat q <> Some c.

(** [c] does not occur in the window [lo <= q < hi] of [t]. *)
Definition none_in (c : ascii) (t : str) (lo hi : Z) : Prop :=
  forall q, lo <= q < hi -> t !! Z.to_nat q <> Some c.

Definition period : ascii := "."%char.
Definition newline : ascii := "010"%char.
Definition space : ascii := " "%char.

End Py.

(** ** [PDFProcessor.chunk_text] *)

Module Chunker.
Import Py.

(** One emitted chunk: the dict built at lines 91-97. *)
Record chunk := Chunk {
  text : str;
  start : Z;
  end_ : Z;
  chunk_index : Z;
  char_count : Z
}.

(** The variables the loop updates. *)
Record loop_state := LoopState {
  cur_start : Z;
  cur_index : Z;
  chunks : list chunk
}.

Definition init : loop_state := LoopState 0 0 [].

(** The value of [end] after lines 75-86.  In the branch
    [end >= len(text)] the assignment of line 78 is overwritten at line 88
    and [end] keeps its candidate value. *)
Definition chunk_end (t : str) (start chunk_size : Z) : Z :=
  let e := start + chunk_size in
  if len t <=? e then e
  else
    let last_period := rfind period t start e in
    let last_newline := rfind newline t start e in
    if (start <? last_period) && (last_newline <? last_period)
    then last_period + 1
    else if start <? last_newline then last_newline + 1
    else e.

(** Lines 100-102. *)
Definition next_start (e overlap : Z) : Z :=
  let start := e - overlap in
  if start <? 0 then e else start.

(** One pass through the body of the [while] loop (lines 75-102). *)
Definition chunk_body (t : str) (chunk_size overlap : Z)
    (st : loop_state) : loop_state :=
  let start := cur_start st in
  let e := chunk_end t start chunk_size in
  let chunk_text := strip (slice t start e) in
  if truthy chunk_text
  then LoopState (next_start e overlap) (cur_index st + 1)
         (chunks st
          ++ [Chunk chunk_text start e (cur_index st) (len chunk_text)])
  else LoopState (next_start e overlap) (cur_index st) (chunks st).

(** The [while start < len(text)] loop; [None] when the fuel runs out
    before the loop condition turns false. *)
Fixpoint chunk_loop (fuel : nat) (t : str) (chunk_size overlap : Z)
    (st : loop_state) : option (list chunk) :=
  if cur_start st <? len t then
    match fuel with
    | O => None
    | S fuel' =>
        chunk_loop fuel' t chunk_size overlap
          (chunk_body t chunk_size overlap st)
    end
  else Some (chunks st).

Definition chunk_text (fuel : nat) (t : str) (chunk_size overlap : Z)
    : option (list chunk) :=
  chunk_loop fuel t chunk_size overlap init.

(** [chunk_text] returns [r]: the loop condition turns false after finitely
    many passes. *)
Definition returns (t : str) (chunk_size overlap : Z) (r : list chunk)
    : Prop :=
  exists fuel, chunk_text fuel t chunk_size overlap = Some r.

(** The state after [n] passes through the loop body. *)
Definition after (n : nat) (t : str) (chunk_size overlap : Z) : loop_state :=
  Nat.iter n (chunk_body t chunk_size overlap) init.

Definition ceil_div (a b : Z) : Z := (a + b - 1) / b.

(** The 43-character example text of the specification. *)
Definition sentences : str :=
  s "Sentence one. Sentence two. Sentence three.".

End Chunker.

(** ** [PDFProcessor.clean_text] *)

Module Cleaner.
Import Py.

(** [re.sub(r'\s+', ' ', text)]: every maximal run of whitespace becomes
    one space.  [in_run] tells that the previous character was whitespace,
    so the run has been replaced already. *)
Fixpoint squeeze (in_run : bool) (t : str) : str :=
  match t with
  | [] => []
  | c :: t' =>
      if isspace c
      then if in_run then squeeze true t' else space :: squeeze true t'
      else c :: squeeze false t'
  end.

Definition sub_whitespace (t : str) : str := squeeze false t.

(** What has been read of a candidate match of [\n\s*\n]: a newline was
    seen; [closed] tells whether a later newline of the same whitespace run
    was reached (the greedy match then ends at the last such newline), and
    [tail] is the whitespace read since the last newline. *)
Record pending := Pending { closed : bool; tail : str }.

Definition flush (p : option pending) : str :=
  match p with
  | None => []
  | Some (Pending true tl) => newline :: newline :: tl
  | Some (Pending false tl) => newline :: tl
  end.

(** [re.sub(r'\n\s*\n', '\n\n', text)]: a newline, the whitespace after it
    and a last newline of that whitespace become two newlines. *)
Fixpoint blank_scan (p : option pending) (t : str) : str :=
  match t with
  | [] => flush p
  | c :: t' =>
      match p with
      | None =>
          if Ascii.eqb c newline
          then blank_scan (Some (Pending false [])) t'
          else c :: blank_scan None t'
      | Some (Pending cl tl) =>
          if Ascii.eqb c newline
          then blank_scan (Some (Pending true [])) t'
          else if isspace c
          then blank_scan (Some (Pending cl (tl ++ [c]))) t'
          else flush p ++ c :: blank_scan None t'
      end
  end.

Definition sub_blank_lines (t : str) : str := blank_scan None t.

(** Lines 54-62. *)
Definition clean_text (t : str) : str :=
  if truthy t
  then strip (sub_blank_lines (sub_whitespace t))
  else [].

End Cleaner.

(** ** [PDFProcessor.extract_text_from_pdf] *)

Module Extractor.
Import Py.

(** What [pdfplumber] does with one page: [extract_text()] returns a text
    or [None], or raises. *)
Inductive page_read :=
| PageText (raw : option str)
| PageRaises (e : string).

(** What [pdfplumber] does with the file at a path: [open] raises, or the
    document has a sequence of pages. *)
Inductive pdf_read :=
| OpenRaises (e : string)
| Opened (pages : list page_read).

(** An entry of [pages_info] (lines 31-35). *)
Record page_info := PageInfo {
  page : Z;
  text : str;
  char_count : Z
}.

(** The dict returned at lines 42-49. *)
Record document := Document {
  file_path : string;
  filename : string;
  full_text : str;
  pages : list page_info;
  total_pages : Z;
  total_chars : Z
}.

(** [sep.join(parts)] *)
Fixpoint join (sep : str) (parts : list str) : str :=
  match parts with
  | [] => []
  | [x] => x
  | x :: parts' => x ++ sep ++ join sep parts'
  end.

(** The [for] loop of lines 26-35 from page number [page_num] on: the
    exception a page raises, or [text_content] and [pages_info]. *)
Fixpoint read_pages (page_num : Z) (ps : list page_read)
    : string + (list str * list page_info) :=
  match ps with
  | [] => inr ([], [])
  | PageRaises e :: _ => inl e
  | PageText raw :: ps' =>
      match read_pages (page_num + 1) ps' with
      | inl e => inl e
      | inr (text_content, pages_info) =>
          match raw with
          | Some t =>
              if truthy t
              then
                let cleaned_text := Cleaner.clean_text t in
                inr (cleaned_text :: text_content,
                     PageInfo page_num cleaned_text (len cleaned_text)
                       :: pages_info)
              else inr (text_content, pages_info)
          | None => inr (text_content, pages_info)
          end
      end
  end.

(** The line printed by the handler of line 51. *)
Definition error_line (file_path e : string) : string :=
  "Error processing " +:+ file_path +:+ ": " +:+ e.

Section WithPath.
(** [Path(file_path).name] *)
Variable path_name : string -> string.

(** Lines 20-52: the value returned and the lines printed, given the path
    and what reading the file at that path does. *)
Definition extract_text_from_pdf (file_path : string) (read : pdf_read)
    : option document * list string :=
  match read with
  | OpenRaises e => (None, [error_line file_path e])
  | Opened ps =>
      match read_pages 1 ps with
      | inl e => (None, [error_line file_path e])
      | inr ([], _) => (None, [])
      | inr (text_content, pages_info) =>
          let full_text := join [newline; newline] text_content in
          (Some (Document file_path (path_name file_path) full_text
                   pages_info (Z.of_nat (length pages_info))
                   (len full_text)),
           [])
      end
  end.
End WithPath.

(** The exception that reading raises, if any. *)
Definition failure (read : pdf_read) : option string :=
  match read with
  | OpenRaises e => Some e
  | Opened ps =>
      match read_pages 1 ps with inl e => Some e | inr _ => None end
  end.

(** A page from which text comes out. *)
Definition yields_text (p : page_read) : bool :=
  match p with
  | PageText (Some t) => truthy t
  | _ => false
  end.

(** A readable document none of whose pages yields text. *)
Definition no_usable_content (read : pdf_read) : Prop :=
  failure read = None
  /\ exists ps, read = Opened ps /\ forallb (fun p => negb (yields_text p)) ps = true.

End Extractor.

(** ** [PDFProcessor._get_page_for_position] *)

Module Pages.
Import Extractor.

(** The [for] loop of lines 131-134, [current_pos] being the running total
    on entry: the page number returned from inside the loop, if any. *)
Fixpoint walk (position current_pos : Z) (pages : list page_info)
    : option Z :=
  match pages with
  | [] => None
  | page_info :: pages' =>
      let current_pos := current_pos + (char_count page_info + 2) in
      if position <? current_pos then Some (page page_info)
      else walk position current_pos pages'
  end.

(** Lines 129-135. *)
Definition _get_page_for_position (position : Z) (pages : list page_info)
    : Z :=
  match walk position 0 pages with
  | Some n => n
  | None =>
      match last pages with
      | Some page_info => page page_info
      | None => 1
      end
  end.

(** The running total once the pages [ps] have been walked. *)
Definition span_total (ps : list page_info) : Z :=
  foldr (fun p acc => char_count p + 2 + acc) 0 ps.

End Pages.

(** ** [Vectorizer.add_documents] *)

Module Vectorizer.

(** The metadata dict of a chunk, with the keys [process_document] writes
    (lines 117-124 of the processor); a key may be absent from a dict. *)
Record metadata := Metadata {
  source : option string;
  file_path : option string;
  page : option Z;
  chunk_index : option Z;
  total_chunks : option Z;
  char_count : option Z
}.

(** An element of the list [add_documents] receives. *)
Record processed_chunk := ProcessedChunk {
  text : string;
  chunk_metadata : metadata
}.

(** Line 42: [f"{meta['source']}_{meta['chunk_index']}"]; subscripting an
    absent key raises [KeyError], here [None]. *)
Definition record_id (meta : metadata) : option string :=
  src ← source meta;
  idx ← chunk_index meta;
  Some (src +:+ "_" +:+ pretty idx).

Section WithModel.
(** The vector type of the embedding model and its batch encoder,
    [self.model.encode(texts, ...).tolist()]. *)
Variable embedding : Type.
Variable encode : list string -> list embedding.

(** What the collection holds under an id. *)
Record stored_record := StoredRecord {
  stored_embedding : embedding;
  stored_document : string;
  stored_metadata : metadata
}.

(** The records of one call of [collection.add], paired with their ids. *)
Fixpoint batch (embeddings : list embedding) (documents : list string)
    (metadatas : list metadata) (ids : list string)
    : list (string * stored_record) :=
  match embeddings, documents, metadatas, ids with
  | e :: embeddings', d :: documents', m :: metadatas', i :: ids' =>
      (i, StoredRecord e d m) :: batch embeddings' documents' metadatas' ids'
  | _, _, _, _ => []
  end.

(** Writing one record under its id. *)
Definition write (collection : gmap string stored_record)
    (kv : string * stored_record) : gmap string stored_record :=
  <[kv.1 := kv.2]> collection.

(** Modelled from the spec: [collection.add] of the vector store, which is
    a third-party library and not part of the sources.  The specification
    of the Index Store says that [add(records)] "appends/overwrites
    StoredRecords keyed by deterministic id": records are written in
    order, a record replacing what the collection held under its id. *)
Definition collection_add (embeddings : list embedding)
    (documents : list string) (metadatas : list metadata)
    (ids : list string) (collection : gmap string stored_record)
    : gmap string stored_record :=
  foldl write collection (batch embeddings documents metadatas ids).

(** Lines 33-49; [None] is the [KeyError] of line 42. *)
Definition add_documents (chunks : list processed_chunk)
    (collection : gmap string stored_record)
    : option (gmap string stored_record) :=
  match chunks with
  | [] => Some collection
  | _ =>
      let texts := text <$> chunks in
      let metadatas := chunk_metadata <$> chunks in
      let embeddings := encode texts in
      ids ← mapM record_id metadatas;
      Some (collection_add embeddings texts metadatas ids collection)
  end.

(** [collection.count()] *)
Definition get_collection_count (collection : gmap string stored_record)
    : nat :=
  size collection.

(** The number of stored records whose metadata names [src] as source. *)
Definition count_for_source (src : string)
    (collection : gmap string stored_record) : nat :=
  length (filter (fun kv => source (stored_metadata kv.2) = Some src)
            (map_to_list collection)).
End WithModel.

(** Two chunks of one document, as [process_document] returns them. *)
Definition demo_chunks : list processed_chunk :=
  [ProcessedChunk "first" (Metadata (Some "a.pdf") (Some "/d/a.pdf")
                             (Some 1) (Some 0) (Some 2) (Some 5));
   ProcessedChunk "second" (Metadata (Some "a.pdf") (Some "/d/a.pdf")
                              (Some 1) (Some 1) (Some 2) (Some 6))].

End Vectorizer.

(** ** [RAGService.query] *)

Module Rag.

(** Python [float]: IEEE-754 binary64. *)
Abbreviation float := spec_float.
Definition prec : Z := 53.
Definition emax : Z := 1024.
Definition f_zero : float := S754_zero false.
Definition f_one : float := S754_finite false 4503599627370496 (-52).
Definition f_two : float := S754_finite false 4503599627370496 (-51).
Definition f_sub : float -> float -> float := SFsub prec emax.
Definition f_lt : float -> float -> bool := SFltb.
Definition f_le : float -> float -> bool := SFleb.

(** Truth value of a [float]: [x != 0.0]. *)
Definition f_truthy (x : float) : bool := negb (SFeqb x f_zero).

(** An element of the list [search] returns (lines 75-79 of the
    vectorizer). *)
Record search_result := SearchResult {
  text : string;
  metadata : Vectorizer.metadata;
  distance : option float
}.

(** The value of [metadata.get('page', 'N/A')]: a page number or the
    default string. *)
Inductive page_ref :=
| PageNo (n : Z)
| PageNA.

(** The dict appended to [sources] at lines 37-43. *)
Record source_record := SourceRecord {
  source : string;
  file_path : string;
  page : page_ref;
  chunk_index : Z;
  relevance_score : option float
}.

(** The dict [query] returns. *)
Record retrieval := Retrieval {
  context : string;
  sources : list source_record
}.

Definition get_source (m : Vectorizer.metadata) : string :=
  default "Unknown" (Vectorizer.source m).

Definition get_page (m : Vectorizer.metadata) : page_ref :=
  match Vectorizer.page m with Some n => PageNo n | None => PageNA end.

(** [f"{page}"] *)
Definition str_page (p : page_ref) : string :=
  match p with PageNo n => pretty n | PageNA => "N/A" end.

(** Line 35: [f"{source}_p{page}"] *)
Definition source_key (source : string) (page : page_ref) : string :=
  source +:+ "_p" +:+ str_page page.

(** Line 42: [1.0 - result.get('distance', 0.0) if result.get('distance')
    else None] *)
Definition relevance (distance : option float) : option float :=
  match distance with
  | Some d => if f_truthy d then Some (f_sub f_one d) else None
  | None => None
  end.

(** Line 33: [f"[{i}] {text}"] *)
Definition context_part (i : Z) (text : string) : string :=
  "[" +:+ pretty i +:+ "] " +:+ text.

(** The record built at lines 37-43 from a result. *)
Definition source_of (result : search_result) : source_record :=
  let m := metadata result in
  SourceRecord (get_source m) (default "" (Vectorizer.file_path m))
    (get_page m) (default 0 (Vectorizer.chunk_index m))
    (relevance (distance result)).

(** The variables the [for] loop of lines 27-44 updates. *)
Record loop_state := LoopState {
  context_parts : list string;
  cur_sources : list source_record;
  seen_sources : gset string
}.

Definition init : loop_state := LoopState [] [] ∅.

(** One pass through the loop body, for the result numbered [i]. *)
Definition query_body (st : loop_state) (i : Z) (result : search_result)
    : loop_state :=
  let m := metadata result in
  let source := get_source m in
  let page := get_page m in
  let parts := context_parts st ++ [context_part i (text result)] in
  let source_key := source_key source page in
  if decide (source_key ∈ seen_sources st)
  then LoopState parts (cur_sources st) (seen_sources st)
  else LoopState parts (cur_sources st ++ [source_of result])
         ({[source_key]} ∪ seen_sources st).

(** [for i, result in enumerate(results, i)] *)
Fixpoint query_loop (st : loop_state) (i : Z) (results : list search_result)
    : loop_state :=
  match results with
  | [] => st
  | result :: results' => query_loop (query_body st i result) (i + 1) results'
  end.

Definition blank_line : string := String Py.newline (String Py.newline "").

(** Lines 15-51, from the ranked list that [search] returned. *)
Definition query (results : list search_result) : retrieval :=
  match results with
  | [] => Retrieval "" []
  | _ =>
      let st := query_loop init 1 results in
      Retrieval (String.concat blank_line (context_parts st))
        (cur_sources st)
  end.

(** The [(source, page)] pair of a result, after the defaults. *)
Definition source_pair (result : search_result) : string * page_ref :=
  (get_source (metadata result), get_page (metadata result)).

Global Instance page_ref_eq_dec : EqDecision page_ref.
Proof. solve_decision. Defined.

(** In the words of the specification: the results kept for [sources] are
    those with no higher-ranked result of the same [(source, page)] pair. *)
Definition first_occurrences (results : list search_result)
    : list search_result :=
  omap id
    (imap (fun i r =>
             if decide (source_pair r ∈ source_pair <$> take i results)
             then None else Some r)
       results).

(** The results of [rs] kept when the pairs in [seen] came before. *)
Fixpoint kept_after (seen : list (string * page_ref))
    (rs : list search_result) : list search_result :=
  match rs with
  | [] => []
  | r :: rs' =>
      if decide (source_pair r ∈ seen) then kept_after seen rs'
      else r :: kept_after (seen ++ [source_pair r]) rs'
  end.

(** Every character of [x] satisfies [P]. *)
Fixpoint all_chars (P : ascii -> bool) (x : string) : bool :=
  match x with
  | EmptyString => true
  | String c x' => P c && all_chars P x'
  end.

(** The characters of a printed integer: digits and the minus sign. *)
Definition int_char (c : ascii) : bool :=
  match Ascii.is_nat c with
  | Some _ => true
  | None => Ascii.eqb c "-"
  end.

End Rag.

(** ** Notions used to describe cleaned text *)

Module CleanerSpec.
Import Py.

(** The characters of [t] that are not whitespace, in order. *)
Definition visible (t : str) : str :=
  List.filter (fun c => negb (isspace c)) t.

(** Every whitespace character of [t] is a space that follows no other
    whitespace; [after_space] tells that whitespace comes just before [t]. *)
Fixpoint single_spaced (after_space : bool) (t : str) : bool :=
  match t with
  | [] => true
  | c :: t' =>
      if isspace c
      then negb after_space && Ascii.eqb c space && single_spaced true t'
      else single_spaced false t'
  end.

End CleanerSpec.

(** ** [PDFProcessor.process_document] and [process_directory] *)

Module Processor.
Import Py.

Section WithSettings.
(** [Path(file_path).name], and [settings.CHUNK_SIZE] and
    [settings.CHUNK_OVERLAP], the defaults of [chunk_text]. *)
Variable path_name : string -> string.
Variables chunk_size chunk_overlap : Z.

(** The dict built at lines 115-125 for one chunk; [total] is
    [len(chunks)]. *)
Definition process_chunk (doc_data : Extractor.document) (total : Z)
    (chunk : Chunker.chunk) : Vectorizer.processed_chunk :=
  Vectorizer.ProcessedChunk
    (string_of_list_ascii (Chunker.text chunk))
    (Vectorizer.Metadata
       (Some (Extractor.filename doc_data))
       (Some (Extractor.file_path doc_data))
       (Some (Pages._get_page_for_position (Chunker.start chunk)
                (Extractor.pages doc_data)))
       (Some (Chunker.chunk_index chunk))
       (Some total)
       (Some (Chunker.char_count chunk))).

(** Lines 106-127, given what reading the file does.  The outer [None] is
    the chunking loop running out of fuel; inside it is the value returned,
    [None] or the list of processed chunks.  What the extractor prints is
    not part of the value. *)
Definition process_document (fuel : nat) (file_path : string)
    (read : Extractor.pdf_read)
    : option (option (list Vectorizer.processed_chunk)) :=
  match (Extractor.extract_text_from_pdf path_name file_path read).1 with
  | None => Some None
  | Some doc_data =>
      chunks ← Chunker.chunk_text fuel (Extractor.full_text doc_data)
                 chunk_size chunk_overlap;
      Some (Some (process_chunk doc_data (Z.of_nat (length chunks))
                    <$> chunks))
  end.

(** Lines 153-157: what one result adds to [all_chunks]; a result that is
    [None] or empty adds nothing. *)
Definition gathered (result : option (list Vectorizer.processed_chunk))
    : list Vectorizer.processed_chunk :=
  default [] result.

(** Lines 141-159, given the files that [rglob] finds, in its order, each
    with what reading it does; [gather] keeps the order of the files.  The
    outer [None] is fuel running out for one of the files. *)
Definition process_directory (fuel : nat)
    (pdf_files : list (string * Extractor.pdf_read))
    : option (list Vectorizer.processed_chunk) :=
  match pdf_files with
  | [] => Some []
  | _ =>
      results ← mapM (fun f => process_document fuel f.1 f.2) pdf_files;
      Some (concat (gathered <$> results))
  end.

End WithSettings.

End Processor.

(** ** [Vectorizer.list_documents] *)

Module Inventory.
Import Vectorizer.

(** A value of the dict [unique_sources] (lines 90-95). *)
Record source_info := SourceInfo {
  info_source : string;
  info_file_path : string;
  info_total_chunks : Z;
  info_pages : gset Z
}.

(** An element of the list returned (lines 102-107). *)
Record document_summary := DocumentSummary {
  doc_source : string;
  doc_file_path : string;
  doc_total_chunks : Z;
  page_range : string
}.

(** [metadata.get('source', 'unknown')] *)
Definition get_source (m : metadata) : string :=
  default "unknown" (source m).

(** [unique_sources[source] = f(unique_sources[source])] on a dict kept as
    the list of its items in insertion order. *)
Fixpoint update (source : string) (f : source_info -> source_info)
    (unique_sources : list (string * source_info))
    : list (string * source_info) :=
  match unique_sources with
  | [] => []
  | (k, v) :: rest =>
      if decide (k = source) then (k, f v) :: rest
      else (k, v) :: update source f rest
  end.

(** What lines 96-98 do to the entry of the record's source. *)
Definition count_record (m : metadata) (info : source_info) : source_info :=
  SourceInfo (info_source info) (info_file_path info)
    (info_total_chunks info + 1)
    (match page m with
     | Some p => {[p]} ∪ info_pages info
     | None => info_pages info
     end).

(** One pass through the loop of lines 87-98. *)
Definition list_body (unique_sources : list (string * source_info))
    (m : metadata) : list (string * source_info) :=
  let source := get_source m in
  let unique_sources :=
    if decide (source ∈ unique_sources.*1) then unique_sources
    else unique_sources
         ++ [(source, SourceInfo source (default "" (file_path m)) 0 ∅)] in
  update source (count_record m) unique_sources.

(** Line 106: [f"{min(pages)}-{max(pages)}" if pages else "N/A"]. *)
Definition format_page_range (pages : gset Z) : string :=
  match elements pages with
  | [] => "N/A"
  | p :: ps => pretty (foldr Z.min p ps) +:+ "-" +:+ pretty (foldr Z.max p ps)
  end.

Definition summarise (info : source_info) : document_summary :=
  DocumentSummary (info_source info) (info_file_path info)
    (info_total_chunks info) (format_page_range (info_pages info)).

(** Lines 83-109, from the metadata list that [collection.get()] returns. *)
Definition list_documents (metadatas : list metadata)
    : list document_summary :=
  summarise <$> (foldl list_body [] metadatas).*2.

(** The records of [ms] whose source is [k]. *)
Definition records_of (k : string) (ms : list metadata) : list metadata :=
  filter (fun m => get_source m = k) ms.

(** The sources of [ms] in the order in which they first appear. *)
Definition first_seen (ms : list metadata) : list string :=
  foldl (fun acc m =>
           if decide (get_source m ∈ acc) then acc
           else acc ++ [get_source m]) [] ms.

(** The entry that the records of [ms] with source [k] add up to. *)
Definition expected (ms : list metadata) (k : string) : source_info :=
  SourceInfo k
    (from_option (fun m => default "" (file_path m)) "" (head (records_of k ms)))
    (Z.of_nat (length (records_of k ms)))
    (list_to_set (omap page (records_of k ms))).

(** Three stored records of two documents, one of them without pages. *)
Definition demo_metadatas : list metadata :=
  [ Metadata (Some "a.pdf") (Some "docs/a.pdf") (Some 5) (Some 0) (Some 2)
      (Some 700);
    Metadata (Some "b.pdf") (Some "docs/b.pdf") None (Some 0) (Some 1)
      (Some 300);
    Metadata (Some "a.pdf") (Some "docs/a.pdf") (Some 2) (Some 1) (Some 2)
      (Some 650) ].

End Inventory.

(** ** [RAGService.format_context_for_prompt] *)

Module Prompt.
Import Rag.

Definition excerpts_header : string :=
  "Relevant document excerpts:" +:+ blank_line.

Definition instructions : string :=
  blank_line
  +:+ "Use the above context to answer the following question. If the context doesn't contain relevant information, say so."
  +:+ blank_line.

(** Lines 53-64, from the ranked list that [search] returned for
    [query_text]. *)
Definition format_context_for_prompt (query_text : string)
    (results : list search_result) : string :=
  let rag_result := query results in
  match context rag_result with
  | EmptyString => ""
  | _ =>
      let formatted := excerpts_header in
      let formatted := formatted +:+ context rag_result in
      let formatted := formatted +:+ instructions in
      let formatted := formatted +:+ ("Question: " +:+ query_text +:+ blank_line) in
      formatted
  end.

End Prompt.

(** ** The batches of [process_all_documents] *)

Module Batching.

(** [range(0, stop, step)] for a positive [step]. *)
Definition range_step (stop step : nat) : list nat :=
  (fun k => k * step)%nat <$> seq 0 ((stop + step - 1) / step).

(** [all_chunks[i:i + batch_size]] for [i] of the range. *)
Definition batch_at {A : Type} (batch_size : nat) (all_chunks : list A)
    (i : nat) : list A :=
  take batch_size (drop i all_chunks).

(** The arguments of the calls of [add_documents] made by the loop of lines
    54-56, in order. *)
Definition batches_of {A : Type} (batch_size : nat) (all_chunks : list A)
    : list (list A) :=
  batch_at batch_size all_chunks <$> range_step (length all_chunks) batch_size.

(** Line 53. *)
Definition batch_size : nat := 100.

Definition vectorize_batches {A : Type} (all_chunks : list A)
    : list (list A) :=
  batches_of batch_size all_chunks.

End Batching.

(** ** [WebsiteScraper]: what is downloaded, and under which name *)

Module Scraper.

(** The dict [get_file_info] builds (lines 109-115). *)
Record file_info := FileInfo {
  url : string;
  filename : string;
  extension : string;
  category : string;
  size : option Z
}.

(** The variables of the loop of lines 287-290. *)
Record selection := Selection {
  unique_files : list file_info;
  seen_urls : gset string
}.

Definition select_body (st : selection) (fi : file_info) : selection :=
  if decide (url fi ∈ seen_urls st) then st
  else Selection (unique_files st ++ [fi]) ({[url fi]} ∪ seen_urls st).

(** [l[:n]]: a negative [n] counts from the end. *)
Definition prefix_slice {A : Type} (n : Z) (l : list A) : list A :=
  if decide (n < 0) then take (length l - Z.to_nat (- n)) l
  else take (Z.to_nat n) l.

(** Lines 280-292 of [download_all_files]: the files [download_file] is
    called on, in order. *)
Definition files_to_download (max_documents : Z) (files : list file_info)
    : list file_info :=
  match files with
  | [] => []
  | _ =>
      let st := foldl select_body (Selection [] ∅) files in
      prefix_slice max_documents (unique_files st)
  end.

(** Lines 237-245 of [download_file]. [path_exists name] is the answer of
    [(category_dir / name).exists()]; [original_stem] and [original_suffix]
    are the two parts pathlib splits the file name into, which the loop only
    puts back together. *)
Section FreeName.
Variable path_exists : string -> bool.
Variables original_stem original_suffix : string.

(** Line 243: [f"{original_stem}_{counter}{original_suffix}"] *)
Definition new_name (counter : Z) : string :=
  original_stem +:+ "_" +:+ pretty counter +:+ original_suffix.

(** [while file_path.exists(): ...], [None] when the fuel runs out. *)
Fixpoint free_name_loop (fuel : nat) (name : string) (counter : Z)
    : option string :=
  match fuel with
  | O => None
  | S fuel' =>
      if path_exists name
      then free_name_loop fuel' (new_name counter) (counter + 1)
      else Some name
  end.

Definition free_name (fuel : nat) (filename : string) : option string :=
  free_name_loop fuel filename 1.

End FreeName.

End Scraper.

(** * Properties *)

(** ** Facts about the string primitives *)

Module PyFacts.
Import Py.

Lemma len_nonneg (t : str) : 0 <= len t.
Proof. unfold len. lia. Qed.

Lemma adjust_index_inside (n i : Z) :
  0 <= i -> 0 <= n -> adjust_index n i = Z.min i n.
Proof.
  intros Hi Hn. unfold adjust_index.
  destruct (Z.ltb_spec i 0); [lia | reflexivity].
Qed.

Lemma adjust_index_range (n i : Z) :
  0 <= n -> 0 <= adjust_index n i <= n.
Proof.
  intros Hn. unfold adjust_index. destruct (Z.ltb_spec i 0); lia.
Qed.

(** A slice between two non-negative bounds. *)
Lemma slice_inside (t : str) (lo hi : Z) :
  0 <= lo -> 0 <= hi ->
  slice t lo hi =
    take (Z.to_nat (Z.min hi (len t) - Z.min lo (len t)))
         (drop (Z.to_nat (Z.min lo (len t))) t).
Proof.
  intros Hlo Hhi. unfold slice.
  rewrite !adjust_index_inside by (auto using len_nonneg).
  reflexivity.
Qed.

Lemma slice_len_le (t : str) (lo hi : Z) :
  0 <= lo -> lo <= hi -> len (slice t lo hi) <= hi - lo.
Proof.
  intros Hlo Hhi. rewrite slice_inside by lia.
  unfold len. rewrite length_take, length_drop. lia.
Qed.

(** A slice that runs up to or past the end is the suffix [t[lo:]]. *)
Lemma slice_to_end (t : str) (lo hi : Z) :
  0 <= lo -> len t <= hi -> slice t lo hi = drop (Z.to_nat lo) t.
Proof.
  intros Hlo Hhi. pose proof (len_nonneg t) as Hn.
  rewrite slice_inside by lia. unfold len in *.
  destruct (Z.le_gt_cases lo (Z.of_nat (length t))) as [Hle | Hgt].
  - rewrite (Z.min_l lo) by lia. rewrite Z.min_r by lia.
    apply take_ge. rewrite length_drop. lia.
  - rewrite (Z.min_r lo) by lia. rewrite Z.min_r by lia.
    rewrite !drop_ge by lia. apply take_nil.
Qed.

Lemma lstrip_length (t : str) : (length (lstrip t) <= length t)%nat.
Proof.
  induction t as [| c t IH]; simpl; [lia |].
  destruct (isspace c); simpl; lia.
Qed.

Lemma strip_length (t : str) : (length (strip t) <= length t)%nat.
Proof.
  unfold strip, rstrip. rewrite length_rev.
  etransitivity; [apply lstrip_length |].
  rewrite length_rev. apply lstrip_length.
Qed.

Lemma strip_len_le (t : str) : len (strip t) <= len t.
Proof. unfold len. pose proof (strip_length t). lia. Qed.

(** [rindex] answers [-1] or a position of the list. *)
Lemma rindex_range (c : ascii) (t : str) (i : Z) :
  rindex c t i = -1 \/ i <= rindex c t i < i + len t.
Proof.
  revert i. induction t as [| x t IH]; intros i; simpl; [now left |].
  unfold len in *. simpl length.
  destruct (IH (i + 1)) as [E | R].
  - rewrite E. simpl. destruct (Ascii.eqb x c); [right; lia | now left].
  - destruct (Z.leb_spec 0 (rindex c t (i + 1))); [right; lia |].
    destruct (Ascii.eqb x c); [right; lia | now left].
Qed.

(** What [rindex] finds: the last occurrence, if there is one. *)
Lemma rindex_spec (c : ascii) (t : str) (i : Z) :
  0 <= i ->
  (rindex c t i = -1 /\ forall k, t !! k <> Some c)
  \/ (exists k : nat, rindex c t i = i + Z.of_nat k /\ t !! k = Some c
        /\ forall j : nat, (k < j)%nat -> t !! j <> Some c).
Proof.
  revert i. induction t as [| x t IH]; intros i Hi; simpl.
  - left. split; [reflexivity |]. intros k. now rewrite lookup_nil.
  - destruct (IH (i + 1)) as [[E N] | (k & E & Hk & Hlast)]; [lia | |].
    + rewrite E. simpl. destruct (Ascii.eqb_spec x c) as [-> | Hne].
      * right. exists 0%nat. split; [lia |]. split; [reflexivity |].
        intros [| j] Hj; [lia |]. simpl. apply N.
      * left. split; [reflexivity |].
        intros [| k]; simpl; [congruence | apply N].
    + rewrite E. destruct (Z.leb_spec 0 (i + 1 + Z.of_nat k)); [| lia].
      right. exists (S k). split; [lia |]. split; [exact Hk |].
      intros [| j] Hj; [lia |]. simpl. apply Hlast. lia.
Qed.

Lemma last_in_unique c t lo hi p p' :
  last_in c t lo hi p -> last_in c t lo hi p' -> p = p'.
Proof.
  intros (Hp & Ep & Lp) (Hp' & Ep' & Lp').
  destruct (Z.lt_trichotomy p p') as [H | [H | H]]; [| exact H |].
  - exfalso. apply (Lp p'); [lia | exact Ep'].
  - exfalso. apply (Lp' p); [lia | exact Ep].
Qed.

Lemma last_in_none c t lo hi p :
  last_in c t lo hi p -> none_in c t lo hi -> False.
Proof. intros (Hp & Ep & _) N. exact (N p Hp Ep). Qed.

(** [rfind] on a window inside the text. *)
Lemma rfind_spec (c : ascii) (t : str) (lo hi : Z) :
  0 <= lo -> lo <= hi -> hi <= len t ->
  (rfind c t lo hi = -1 /\ none_in c t lo hi)
  \/ last_in c t lo hi (rfind c t lo hi).
Proof.
  intros Hlo Hhi Hlen. unfold rfind.
  rewrite slice_inside, adjust_index_inside by (auto using len_nonneg; lia).
  rewrite !Z.min_l by lia.
  set (w := take (Z.to_nat (hi - lo)) (drop (Z.to_nat lo) t)).
  assert (Hw : forall k : nat, (k < Z.to_nat (hi - lo))%nat ->
                 w !! k = t !! (Z.to_nat lo + k)%nat).
  { intros k Hk. unfold w. rewrite lookup_take_lt by exact Hk.
    apply lookup_drop. }
  assert (Lw : length w = Z.to_nat (hi - lo)).
  { unfold w. rewrite length_take, length_drop. unfold len in Hlen. lia. }
  destruct (rindex_spec c w lo Hlo) as [[E N] | (k & E & Hk & Hlast)].
  - left. split; [exact E |]. intros q Hq Eq.
    apply (N (Z.to_nat (q - lo))). rewrite Hw by lia.
    rewrite <- Eq. f_equal. lia.
  - right. assert (k < Z.to_nat (hi - lo))%nat as Hklt.
    { rewrite <- Lw. apply lookup_lt_is_Some. eauto. }
    rewrite E. split; [lia |]. split.
    + rewrite <- Hk, Hw by lia. f_equal. lia.
    + intros q Hq Eq. apply (Hlast (Z.to_nat (q - lo))); [lia |].
      rewrite Hw by lia. rewrite <- Eq. f_equal. lia.
Qed.

Lemma rfind_range (c : ascii) (t : str) (lo hi : Z) :
  0 <= lo -> lo <= hi -> hi <= len t ->
  rfind c t lo hi = -1 \/ lo <= rfind c t lo hi < hi.
Proof.
  intros Hlo Hhi Hlen.
  destruct (rfind_spec c t lo hi Hlo Hhi Hlen) as [[E _] | (R & _)]; auto.
Qed.

(** A character that is nowhere in the text is never found. *)
Lemma rindex_absent (c : ascii) (t : str) (i : Z) :
  c ∉ t -> rindex c t i = -1.
Proof.
  revert i. induction t as [| x t IH]; intros i Hc; simpl; [reflexivity |].
  rewrite IH by (intros ?; apply Hc; now right). simpl.
  destruct (Ascii.eqb_spec x c) as [-> | _]; [| reflexivity].
  exfalso. apply Hc. now left.
Qed.

Lemma rfind_absent (c : ascii) (t : str) (lo hi : Z) :
  c ∉ t -> rfind c t lo hi = -1.
Proof.
  intros Hc. unfold rfind, slice. apply rindex_absent.
  intros Hin. apply Hc.
  eapply subseteq_drop, subseteq_take, Hin.
Qed.

End PyFacts.

(** ** The chunking loop *)

Module ChunkerFacts.
Import Py PyFacts Chunker.

Lemma chunk_end_bounds (t : str) (start chunk_size : Z) :
  0 <= start -> 1 <= chunk_size ->
  start < chunk_end t start chunk_size <= start + chunk_size.
Proof.
  intros Hs Hc. unfold chunk_end.
  destruct (Z.leb_spec (len t) (start + chunk_size)) as [_ | Hin]; [lia |].
  pose proof (rfind_range period t start (start + chunk_size)) as Hp.
  pose proof (rfind_range newline t start (start + chunk_size)) as Hn.
  destruct (Z.ltb_spec start (rfind period t start (start + chunk_size)));
    destruct (Z.ltb_spec (rfind newline t start (start + chunk_size))
                (rfind period t start (start + chunk_size)));
    destruct (Z.ltb_spec start (rfind newline t start (start + chunk_size)));
    simpl; lia.
Qed.

Lemma next_start_nonneg (e overlap : Z) : 0 <= e -> 0 <= next_start e overlap.
Proof. intros He. unfold next_start. destruct (Z.ltb_spec (e - overlap) 0); lia. Qed.

Lemma cur_start_body (t : str) (cs ov : Z) (st : loop_state) :
  cur_start (chunk_body t cs ov st)
  = next_start (chunk_end t (cur_start st) cs) ov.
Proof. unfold chunk_body. now destruct (truthy _). Qed.

(** The chunks of a state are a prefix of those of the next, which has at
    most one more. *)
Lemma chunks_body (t : str) (cs ov : Z) (st : loop_state) :
  chunks (chunk_body t cs ov st) = chunks st
  \/ exists c, chunks (chunk_body t cs ov st) = chunks st ++ [c]
       /\ start c = cur_start st
       /\ end_ c = chunk_end t (cur_start st) cs
       /\ text c = strip (slice t (start c) (end_ c))
       /\ char_count c = len (text c).
Proof.
  unfold chunk_body.
  destruct (truthy (strip (slice t (cur_start st)
              (chunk_end t (cur_start st) cs)))); simpl.
  - right. eexists. split; [reflexivity |]. simpl. auto.
  - now left.
Qed.

Lemma chunks_body_length (t : str) (cs ov : Z) (st : loop_state) :
  (length (chunks (chunk_body t cs ov st)) <= S (length (chunks st)))%nat.
Proof.
  destruct (chunks_body t cs ov st) as [-> | (c & -> & _)];
    [| rewrite length_app; simpl]; lia.
Qed.

Lemma cur_start_after_nonneg (t : str) (cs ov : Z) (n : nat) :
  1 <= cs -> 0 <= cur_start (after n t cs ov).
Proof.
  intros Hcs. unfold after. induction n as [| n IH]; [simpl; lia |].
  rewrite Nat.iter_succ, cur_start_body. apply next_start_nonneg.
  pose proof (chunk_end_bounds t _ cs IH Hcs). lia.
Qed.

(** What the loop returns is the chunk list of some state it went through. *)
Lemma chunk_loop_iter (fuel : nat) (t : str) (cs ov : Z) (st : loop_state)
    (r : list chunk) :
  chunk_loop fuel t cs ov st = Some r ->
  exists n, (n <= fuel)%nat /\ r = chunks (Nat.iter n (chunk_body t cs ov) st).
Proof.
  revert st. induction fuel as [| fuel IH]; intros st; simpl.
  - destruct (cur_start st <? len t); [discriminate |].
    intros [= <-]. exists 0%nat. split; [lia | reflexivity].
  - destruct (cur_start st <? len t).
    + intros H. destruct (IH _ H) as (n & Hn & ->).
      exists (S n). split; [lia |]. now rewrite Nat.iter_succ_r.
    + intros [= <-]. exists 0%nat. split; [lia | reflexivity].
Qed.

Lemma chunk_loop_more_fuel (fuel fuel' : nat) (t : str) (cs ov : Z)
    (st : loop_state) (r : list chunk) :
  chunk_loop fuel t cs ov st = Some r -> (fuel <= fuel')%nat ->
  chunk_loop fuel' t cs ov st = Some r.
Proof.
  revert fuel' st. induction fuel as [| fuel IH]; intros fuel' st; simpl.
  - destruct (cur_start st <? len t) eqn:E; [discriminate |].
    intros H _. destruct fuel'; simpl; now rewrite E.
  - destruct (cur_start st <? len t) eqn:E.
    + intros H Hle. destruct fuel' as [| fuel']; [lia |]. simpl.
      rewrite E. apply IH; [exact H | lia].
    + intros H _. destruct fuel'; simpl; now rewrite E.
Qed.

(** The result does not depend on the fuel. *)
Lemma returns_unique (t : str) (cs ov : Z) (r r' : list chunk) :
  returns t cs ov r -> returns t cs ov r' -> r = r'.
Proof.
  intros [f Hf] [f' Hf']. unfold chunk_text in *.
  apply (chunk_loop_more_fuel _ (Nat.max f f')) in Hf; [| lia].
  apply (chunk_loop_more_fuel _ (Nat.max f f')) in Hf'; [| lia].
  congruence.
Qed.

(** If every pass moves the cursor forward by at least [d], the loop stops
    within [(len t - start) / d] passes, rounded up. *)
Lemma chunk_loop_progress (t : str) (cs ov d : Z) :
  1 <= d ->
  (forall st, 0 <= cur_start st ->
     cur_start st + d <= cur_start (chunk_body t cs ov st)) ->
  forall (fuel : nat) (st : loop_state),
    0 <= cur_start st ->
    len t - cur_start st <= Z.of_nat fuel * d ->
    exists r, chunk_loop fuel t cs ov st = Some r
      /\ (length r <= length (chunks st) + fuel)%nat.
Proof.
  intros Hd Hstep fuel. induction fuel as [| fuel IH]; intros st Hs Hf; simpl.
  - destruct (Z.ltb_spec (cur_start st) (len t)); [lia |].
    eexists. split; [reflexivity | lia].
  - destruct (Z.ltb_spec (cur_start st) (len t)).
    + pose proof (Hstep st Hs) as Hadv.
      destruct (IH (chunk_body t cs ov st)) as (r & Hr & Hlen); [lia | nia |].
      exists r. split; [exact Hr |].
      pose proof (chunks_body_length t cs ov st). lia.
    + eexists. split; [reflexivity | lia].
Qed.

(** A cursor position that the body maps to itself is never left. *)
Lemma chunk_loop_stuck (t : str) (cs ov p : Z) :
  p < len t -> next_start (chunk_end t p cs) ov = p ->
  forall (fuel : nat) (st : loop_state),
    cur_start st = p -> chunk_loop fuel t cs ov st = None.
Proof.
  intros Hp Hfix fuel. induction fuel as [| fuel IH]; intros st Hst; simpl;
    rewrite Hst; destruct (Z.ltb_spec p (len t)); try lia; [reflexivity |].
  apply IH. rewrite cur_start_body, Hst. exact Hfix.
Qed.

Lemma chunk_end_plain (t : str) (start cs : Z) :
  period ∉ t -> newline ∉ t -> 0 <= start ->
  chunk_end t start cs = start + cs.
Proof.
  intros Hp Hn Hs. unfold chunk_end.
  rewrite !rfind_absent by assumption.
  destruct (len t <=? start + cs); [reflexivity |].
  destruct (Z.ltb_spec start (-1)); [lia | reflexivity].
Qed.

Lemma ceil_div_covers (a d : Z) : 1 <= d -> a <= ceil_div a d * d.
Proof.
  intros Hd. unfold ceil_div.
  pose proof (Z.div_mod (a + d - 1) d ltac:(lia)).
  pose proof (Z.mod_pos_bound (a + d - 1) d ltac:(lia)). nia.
Qed.

Lemma ceil_div_nonneg (a d : Z) : 0 <= a -> 1 <= d -> 0 <= ceil_div a d.
Proof. intros Ha Hd. unfold ceil_div. apply Z.div_pos; lia. Qed.

End ChunkerFacts.

(** ** Claims about [chunk_text] *)

Module ChunkerClaims.
Import Py PyFacts Chunker ChunkerFacts.

(** On the example text with [chunk_size = 20] and [overlap = 5] the cursor
    reaches 22 after two passes and stays there: the period at 26 is the
    last one before 42, the chunk ends at 27 and [27 - 5 = 22]. *)
Lemma chunk_text_example_never_returns (fuel : nat) :
  chunk_text fuel sentences 20 5 = None.
Proof.
  unfold chunk_text.
  destruct fuel as [| [| fuel]]; [reflexivity | reflexivity |].
  cbn [chunk_loop]. change (cur_start init <? len sentences) with true.
  cbv iota.
  change (cur_start (chunk_body sentences 20 5 init) <? len sentences)
    with true.
  cbv iota.
  apply (chunk_loop_stuck sentences 20 5 22); reflexivity.
Qed.

(** A shorter instance: the period at 6 is followed by 14 characters without
    a boundary; from cursor 2 the chunk ends at 7 and [7 - 5 = 2]. *)
Lemma chunk_text_long_sentence_never_returns (fuel : nat) :
  chunk_text fuel (s "aaaaaa.aaaaaaaaaaaaaa") 10 5 = None.
Proof.
  unfold chunk_text. destruct fuel as [| fuel]; [reflexivity |].
  cbn [chunk_loop].
  change (cur_start init <? len (s "aaaaaa.aaaaaaaaaaaaaa")) with true.
  cbv iota.
  apply (chunk_loop_stuck _ 10 5 2); reflexivity.
Qed.

(** C1 (as stated, refuted): with [chunk_size = 3] and [overlap = 0] the
    20-character text ["a.b.c.d.e.f.g.h.i.j."] is cut after every period,
    so [chunk_text] returns 10 chunks, more than [ceil(20 / 3) = 7]. *)
Lemma chunk_text_count_exceeds_bound :
  ~ (exists r, returns (s "a.b.c.d.e.f.g.h.i.j.") 3 0 r
       /\ Z.of_nat (length r)
          <= ceil_div (len (s "a.b.c.d.e.f.g.h.i.j.")) (3 - 0)).
Proof.
  intros (r & Hr & Hlen).
  assert (Hten : exists r', returns (s "a.b.c.d.e.f.g.h.i.j.") 3 0 r'
                   /\ length r' = 10%nat).
  { eexists. split; [exists 10%nat; vm_compute; reflexivity | reflexivity]. }
  destruct Hten as (r' & Hr' & Hl').
  rewrite (returns_unique _ _ _ _ _ Hr Hr'), Hl' in Hlen.
  vm_compute in Hlen. apply Hlen. reflexivity.
Qed.

(** C1 (amended): for every [chunk_size >= 1] and [0 <= overlap <
    chunk_size], [chunk_text] returns, with at most
    [ceil(len(text) / (chunk_size - overlap))] chunks, on every text that
    has no period and no newline (no boundary shortens a chunk), and with
    at most [len(text)] chunks on every text when [overlap = 0]; after a
    pass the cursor is [end] when [end - overlap] is negative, and
    [end - overlap] when that lies beyond the old cursor. *)
Theorem chunk_text_terminates (t : str) (chunk_size overlap : Z) :
  1 <= chunk_size -> 0 <= overlap < chunk_size ->
  (period ∉ t -> newline ∉ t ->
     exists r, returns t chunk_size overlap r
       /\ Z.of_nat (length r) <= ceil_div (len t) (chunk_size - overlap))
  /\ (overlap = 0 ->
      exists r, returns t chunk_size overlap r
        /\ Z.of_nat (length r) <= len t)
  /\ (forall st,
        let e := chunk_end t (cur_start st) chunk_size in
        (e - overlap < 0 ->
         cur_start (chunk_body t chunk_size overlap st) = e)
        /\ (cur_start st < e - overlap ->
            0 <= cur_start st ->
            cur_start (chunk_body t chunk_size overlap st) = e - overlap)).
Proof.
  intros Hcs Hov. pose proof (len_nonneg t) as Hlen. split; [| split].
  - intros Hp Hn.
    pose proof (ceil_div_covers (len t) (chunk_size - overlap)
                  ltac:(lia)) as Hcov.
    pose proof (ceil_div_nonneg (len t) (chunk_size - overlap)
                  Hlen ltac:(lia)) as Hnn.
    destruct (chunk_loop_progress t chunk_size overlap
                (chunk_size - overlap) ltac:(lia)) with
      (fuel := Z.to_nat (ceil_div (len t) (chunk_size - overlap)))
      (st := init) as (r & Hr & Hl).
    + intros st Hst. rewrite cur_start_body.
      rewrite chunk_end_plain by assumption. unfold next_start.
      destruct (Z.ltb_spec (cur_start st + chunk_size - overlap) 0); lia.
    + simpl. lia.
    + simpl. lia.
    + exists r. split; [eexists; exact Hr | simpl in Hl; lia].
  - intros ->.
    destruct (chunk_loop_progress t chunk_size 0 1 ltac:(lia)) with
      (fuel := Z.to_nat (len t)) (st := init) as (r & Hr & Hl).
    + intros st Hst. rewrite cur_start_body.
      pose proof (chunk_end_bounds t (cur_start st) chunk_size Hst Hcs).
      unfold next_start.
      destruct (Z.ltb_spec (chunk_end t (cur_start st) chunk_size - 0) 0);
        lia.
    + simpl. lia.
    + simpl. lia.
    + exists r. split; [eexists; exact Hr | simpl in Hl; lia].
  - intros st e. rewrite cur_start_body. fold e. unfold next_start.
    destruct (Z.ltb_spec (e - overlap) 0); split; intros; lia.
Qed.

Lemma chunk_text_terminates_witness :
  (exists r, returns (s "abcdefghijkl") 5 2 r
     /\ Z.of_nat (length r) <= ceil_div (len (s "abcdefghijkl")) (5 - 2))
  /\ (exists r, returns (s "a.b.c.d.e.f.g.h.i.j.") 3 0 r
        /\ Z.of_nat (length r) <= len (s "a.b.c.d.e.f.g.h.i.j.")).
Proof.
  split.
  - apply (chunk_text_terminates (s "abcdefghijkl") 5 2); try lia.
    + intros H. apply list_elem_of_In in H. vm_compute in H.
      intuition discriminate.
    + intros H. apply list_elem_of_In in H. vm_compute in H.
      intuition discriminate.
  - apply (chunk_text_terminates (s "a.b.c.d.e.f.g.h.i.j.") 3 0); lia.
Defined.

(** When the candidate end reaches the end of the text, the slice taken is
    the rest of the text, [end] keeps the candidate value, and the loop goes
    on from [end - overlap] like after any other pass. *)
Lemma chunk_body_at_text_end (t : str) (cs ov : Z) (st : loop_state) :
  0 <= cur_start st -> len t <= cur_start st + cs ->
  chunk_end t (cur_start st) cs = cur_start st + cs
  /\ slice t (cur_start st) (chunk_end t (cur_start st) cs)
     = drop (Z.to_nat (cur_start st)) t
  /\ cur_start (chunk_body t cs ov st) = next_start (cur_start st + cs) ov.
Proof.
  intros Hs He.
  assert (E : chunk_end t (cur_start st) cs = cur_start st + cs).
  { unfold chunk_end.
    destruct (Z.leb_spec (len t) (cur_start st + cs)); [reflexivity | lia]. }
  rewrite cur_start_body, E. split; [reflexivity |]. split; [| reflexivity].
  apply slice_to_end; assumption.
Qed.

(** C2 (the code at the failing input): the 8-character text ["abcdefgh"]
    is shorter than [chunk_size = 10]; the first pass emits the whole text,
    leaves the cursor at [10 - 5 = 5 < 8], and a second pass emits the tail
    ["fgh"] again: two chunks, not one. *)
Theorem chunk_text_short_text_two_chunks :
  chunk_text 2 (s "abcdefgh") 10 5
  = Some [Chunk (s "abcdefgh") 0 10 0 8; Chunk (s "fgh") 5 15 1 3].
Proof. vm_compute. reflexivity. Qed.

(** C3 (as stated, refuted): in [".abcdefghij"] with [chunk_size = 5] the
    window [0 <= p < 5] holds a period, at 0, and no newline, yet the first
    chunk does not end just past that period but at the raw cut 5. *)
Lemma chunk_end_period_at_start :
  last_in period (s ".abcdefghij") 0 (0 + 5) 0
  /\ none_in newline (s ".abcdefghij") 0 (0 + 5)
  /\ chunk_end (s ".abcdefghij") 0 5 <> 0 + 1.
Proof.
  split; [| split].
  - split; [lia |]. split; [reflexivity |].
    intros q Hq.
    assert (q = 1 \/ q = 2 \/ q = 3 \/ q = 4) as [-> | [-> | [-> | ->]]]
      by lia; discriminate.
  - intros q Hq.
    assert (q = 0 \/ q = 1 \/ q = 2 \/ q = 3 \/ q = 4)
      as [-> | [-> | [-> | [-> | ->]]]] by lia; discriminate.
  - vm_compute. discriminate.
Qed.

(** C3 (amended): when the candidate end [start + chunk_size] lies inside
    the text, the chunk ends just past the last period of the window
    [start <= p < candidate] if that period lies strictly after [start] and
    later than the last newline of the window; otherwise just past the last
    newline if it lies strictly after [start]; otherwise at the candidate.
    On the example text with [chunk_size = 20] and [overlap = 5] the first
    pass emits ["Sentence one."], ending at 13 just past the period at 12,
    and moves the cursor to [13 - 5 = 8]. *)
Theorem chunk_end_boundary (t : str) (start chunk_size : Z) :
  0 <= start -> 1 <= chunk_size -> start + chunk_size < len t ->
  let candidate := start + chunk_size in
  (forall p, last_in period t start candidate p -> start < p ->
     (forall q, last_in newline t start candidate q -> q < p) ->
     chunk_end t start chunk_size = p + 1)
  /\ (forall q, last_in newline t start candidate q -> start < q ->
        (forall p, last_in period t start candidate p -> p < q) ->
        chunk_end t start chunk_size = q + 1)
  /\ ((forall p, last_in period t start candidate p -> p <= start) ->
      (forall q, last_in newline t start candidate q -> q <= start) ->
      chunk_end t start chunk_size = candidate)
  /\ after 1 sentences 20 5
     = LoopState 8 1 [Chunk (s "Sentence one.") 0 13 0 13].
Proof.
  intros Hs Hcs Hin candidate.
  pose proof (rfind_spec period t start candidate Hs ltac:(lia) ltac:(lia))
    as HP.
  pose proof (rfind_spec newline t start candidate Hs ltac:(lia) ltac:(lia))
    as HN.
  unfold chunk_end. fold candidate.
  destruct (Z.leb_spec (len t) candidate) as [Hge | _]; [lia |].
  set (lp := rfind period t start candidate) in *.
  set (ln := rfind newline t start candidate) in *.
  split; [| split; [| split]].
  - intros p Hp Hsp Hq.
    destruct HP as [[_ Hnone] | HP];
      [destruct (last_in_none _ _ _ _ _ Hp Hnone) |].
    rewrite (last_in_unique _ _ _ _ _ _ Hp HP) in *.
    destruct (Z.ltb_spec start lp); [| lia].
    destruct HN as [[-> _] | HN].
    + destruct (Z.ltb_spec (-1) lp); [reflexivity | lia].
    + specialize (Hq _ HN).
      destruct (Z.ltb_spec ln lp); [reflexivity | lia].
  - intros q Hq Hsq Hp.
    destruct HN as [[_ Hnone] | HN];
      [destruct (last_in_none _ _ _ _ _ Hq Hnone) |].
    rewrite (last_in_unique _ _ _ _ _ _ Hq HN) in *.
    destruct HP as [[-> _] | HP].
    + destruct (Z.ltb_spec start (-1)); [lia |]. simpl.
      destruct (Z.ltb_spec start ln); [reflexivity | lia].
    + specialize (Hp _ HP).
      destruct (Z.ltb_spec ln lp); [lia |]. rewrite andb_false_r.
      destruct (Z.ltb_spec start ln); [reflexivity | lia].
  - intros Hp Hq.
    assert (lp <= start) as Hlp.
    { destruct HP as [[-> _] | HP]; [lia | exact (Hp _ HP)]. }
    assert (ln <= start) as Hln.
    { destruct HN as [[-> _] | HN]; [lia | exact (Hq _ HN)]. }
    destruct (Z.ltb_spec start lp); [lia |]. simpl.
    destruct (Z.ltb_spec start ln); [lia | reflexivity].
  - vm_compute. reflexivity.
Qed.

Lemma chunk_end_boundary_witness :
  chunk_end sentences 0 20 = 12 + 1.
Proof.
  destruct (chunk_end_boundary sentences 0 20) as (Hperiod & _);
    [lia | lia | vm_compute; reflexivity |].
  apply Hperiod; [| lia |].
  - split; [lia |]. split; [reflexivity |].
    intros q Hq.
    assert (q = 13 \/ q = 14 \/ q = 15 \/ q = 16 \/ q = 17 \/ q = 18
            \/ q = 19) as Hcases by lia.
    repeat (destruct Hcases as [-> | Hcases]; [discriminate |]).
    subst q. discriminate.
  - intros q (Hq & Eq & _).
    assert (Z.to_nat q < 20)%nat as Hlt by lia.
    revert Eq. generalize (Z.to_nat q) Hlt. clear.
    intros n Hn.
    do 20 (destruct n as [| n]; [discriminate |]). lia.
Defined.

(** C10: for every text, every [chunk_size >= 1] and every overlap, each
    chunk the loop has emitted after any number of passes, and so each chunk
    of a returned list, is the trimmed slice [text[start:end]], at most
    [chunk_size] characters long, with [char_count] the length of the
    trimmed text. *)
Theorem chunk_text_chunks_within (t : str) (chunk_size overlap : Z) :
  1 <= chunk_size ->
  let within (c : chunk) :=
    text c = strip (slice t (start c) (end_ c))
    /\ len (text c) <= chunk_size
    /\ char_count c = len (text c) in
  (forall n, Forall within (chunks (after n t chunk_size overlap)))
  /\ (forall r, returns t chunk_size overlap r -> Forall within r).
Proof.
  intros Hcs within.
  assert (Hafter : forall n,
            Forall within (chunks (after n t chunk_size overlap))).
  { intros n. induction n as [| n IH]; [constructor |].
    unfold after in *. rewrite Nat.iter_succ.
    set (st := Nat.iter n (chunk_body t chunk_size overlap) init) in *.
    pose proof (cur_start_after_nonneg t chunk_size overlap n Hcs) as Hst.
    unfold after in Hst. fold st in Hst.
    destruct (chunks_body t chunk_size overlap st)
      as [-> | (c & -> & Hc1 & Hc2 & Hc3 & Hc4)]; [exact IH |].
    apply Forall_app. split; [exact IH |].
    constructor; [| constructor].
    split; [exact Hc3 |]. split; [| exact Hc4].
    rewrite Hc3, Hc1, Hc2.
    pose proof (chunk_end_bounds t (cur_start st) chunk_size Hst Hcs).
    pose proof (strip_len_le (slice t (cur_start st)
                  (chunk_end t (cur_start st) chunk_size))).
    pose proof (slice_len_le t (cur_start st)
                  (chunk_end t (cur_start st) chunk_size) Hst ltac:(lia)).
    lia. }
  split; [exact Hafter |].
  intros r [fuel Hr]. unfold chunk_text in Hr.
  destruct (chunk_loop_iter _ _ _ _ _ _ Hr) as (n & _ & ->).
  apply Hafter.
Qed.

Lemma chunk_text_chunks_within_witness :
  Forall (fun c => len (text c) <= 10)
    [Chunk (s "abcdefgh") 0 10 0 8; Chunk (s "fgh") 5 15 1 3].
Proof.
  destruct (chunk_text_chunks_within (s "abcdefgh") 10 5) as [_ Hret];
    [lia |].
  eapply Forall_impl; [apply Hret; exists 2%nat; vm_compute; reflexivity |].
  simpl. tauto.
Defined.

End ChunkerClaims.

(** ** Text cleaning *)

Module CleanerFacts.
Import Py PyFacts Cleaner.

Lemma isspace_newline : isspace newline = true.
Proof. reflexivity. Qed.

(** After the first substitution the only whitespace left is the space. *)
Lemma squeeze_only_spaces (b : bool) (t : str) (c : ascii) :
  c ∈ squeeze b t -> isspace c = true -> c = space.
Proof.
  revert b. induction t as [| x t IH]; intros b Hin Hc; simpl in Hin.
  - inversion Hin.
  - destruct (isspace x) eqn:Hx.
    + destruct b.
      * eapply IH; eassumption.
      * apply elem_of_cons in Hin as [-> | Hin]; [reflexivity |].
        eapply IH; eassumption.
    + apply elem_of_cons in Hin as [-> | Hin]; [congruence |].
      eapply IH; eassumption.
Qed.

Lemma sub_whitespace_no_newline (t : str) : newline ∉ sub_whitespace t.
Proof.
  intros Hin. apply squeeze_only_spaces in Hin; [discriminate | reflexivity].
Qed.

(** Without a newline in the text the second substitution has nothing to
    match. *)
Lemma sub_blank_lines_no_newline (t : str) :
  newline ∉ t -> sub_blank_lines t = t.
Proof.
  unfold sub_blank_lines. induction t as [| c t IH]; intros Hn; simpl;
    [reflexivity |].
  destruct (Ascii.eqb_spec c newline) as [-> | _].
  - exfalso. apply Hn. now left.
  - f_equal. apply IH. intros H. apply Hn. now right.
Qed.

Lemma lstrip_subseteq (t : str) : lstrip t ⊆ t.
Proof.
  induction t as [| c t IH]; simpl; [done |].
  destruct (isspace c); [| done].
  intros x Hx. right. now apply IH.
Qed.

Lemma elem_of_rev (x : ascii) (t : str) : x ∈ rev t <-> x ∈ t.
Proof. rewrite !list_elem_of_In. symmetry. apply in_rev. Qed.

Lemma strip_subseteq (t : str) : strip t ⊆ t.
Proof.
  unfold strip, rstrip. intros x Hx.
  apply (proj1 (elem_of_rev _ _)) in Hx.
  pose proof (lstrip_subseteq _ _ Hx) as Hr.
  apply (proj1 (elem_of_rev _ _)) in Hr.
  exact (lstrip_subseteq t x Hr).
Qed.

(** The second substitution of [clean_text] never changes anything. *)
Lemma clean_text_one_substitution (t : str) :
  clean_text t = if truthy t then strip (sub_whitespace t) else [].
Proof.
  unfold clean_text. destruct (truthy t); [| reflexivity].
  now rewrite sub_blank_lines_no_newline
    by apply sub_whitespace_no_newline.
Qed.

(** No newline, hence no blank line, survives cleaning. *)
Lemma clean_text_no_newline (t : str) : newline ∉ clean_text t.
Proof.
  rewrite clean_text_one_substitution. destruct (truthy t).
  - intros H. apply strip_subseteq in H.
    exact (sub_whitespace_no_newline t H).
  - inversion 1.
Qed.

(** Every whitespace character of the cleaned text is a space. *)
Lemma clean_text_only_spaces (t : str) (c : ascii) :
  c ∈ clean_text t -> isspace c = true -> c = space.
Proof.
  rewrite clean_text_one_substitution. destruct (truthy t).
  - intros H Hc. apply strip_subseteq in H.
    exact (squeeze_only_spaces _ _ _ H Hc).
  - inversion 1.
Qed.

(** C4 (the code at the failing input): the text [a], three newlines, [b]
    has a run of blank lines between its two letters; [clean_text] returns
    ["a b"], with a space and no blank line at that position. *)
Theorem clean_text_drops_blank_lines :
  clean_text (s "a" ++ [newline; newline; newline] ++ s "b") = s "a b".
Proof. vm_compute. reflexivity. Qed.

End CleanerFacts.

(** ** Extraction outcomes *)

Module ExtractorFacts.
Import Py Extractor.

Lemma read_pages_content (n : Z) (ps : list page_read)
    (text_content : list str) (pages_info : list page_info) :
  read_pages n ps = inr (text_content, pages_info) ->
  length text_content = length pages_info
  /\ (text_content = [] <->
      forallb (fun p => negb (yields_text p)) ps = true).
Proof.
  revert n text_content pages_info.
  induction ps as [| p ps IH]; intros n tc pi; simpl.
  - intros [= <- <-]. split; [reflexivity | tauto].
  - destruct p as [raw | e]; [| discriminate].
    destruct (read_pages (n + 1) ps) as [e | [tc' pi']] eqn:E;
      [discriminate |].
    destruct (IH _ _ _ E) as [Hlen Hiff].
    destruct raw as [t |]; simpl.
    + destruct (truthy t); simpl.
      * intros [= <- <-]. simpl. split; [congruence |].
        split; discriminate.
      * intros [= <- <-]. tauto.
    + intros [= <- <-]. tauto.
Qed.

(** C5 (as stated, refuted): a file that cannot be opened and a readable
    one-page document whose page has no text give the same return value. *)
Lemma extract_conflates_failure_and_no_content :
  failure (OpenRaises "cannot open") = Some "cannot open"
  /\ no_usable_content (Opened [PageText None])
  /\ fst (extract_text_from_pdf (fun p => p) "a.pdf"
            (OpenRaises "cannot open"))
     = fst (extract_text_from_pdf (fun p => p) "a.pdf"
              (Opened [PageText None])).
Proof.
  split; [reflexivity |]. split; [| reflexivity].
  split; [reflexivity |]. eexists. split; reflexivity.
Qed.

(** C5 (amended): [extract_text_from_pdf] returns [None] both when reading
    raises and when the document is readable but no page yields text; the
    two outcomes differ only in the error line printed in the first case;
    it returns a document when reading succeeds and some page yields
    text. *)
Theorem extract_outcomes (path_name : string -> string)
    (file_path : string) (read : pdf_read) :
  (forall e, failure read = Some e ->
     extract_text_from_pdf path_name file_path read
     = (None, [error_line file_path e]))
  /\ (no_usable_content read ->
      extract_text_from_pdf path_name file_path read = (None, []))
  /\ (failure read = None -> ~ no_usable_content read ->
      exists d,
        extract_text_from_pdf path_name file_path read = (Some d, [])
        /\ Extractor.file_path d = file_path
        /\ pages d <> []).
Proof.
  split; [| split].
  - intros e He. destruct read as [e' | ps]; simpl in *.
    + now inversion He.
    + destruct (read_pages 1 ps) as [e' | r]; [| discriminate].
      now inversion He.
  - intros (Hf & ps & -> & Hall). simpl in *.
    destruct (read_pages 1 ps) as [e | [tc pi]] eqn:E; [discriminate |].
    destruct (read_pages_content _ _ _ _ E) as [_ Hiff].
    apply Hiff in Hall. now subst tc.
  - intros Hf Hcontent. destruct read as [e | ps]; simpl in *;
      [discriminate |].
    destruct (read_pages 1 ps) as [e | [tc pi]] eqn:E; [discriminate |].
    destruct (read_pages_content _ _ _ _ E) as [Hlen Hiff].
    destruct tc as [| x tc].
    + exfalso. apply Hcontent. split; [simpl; now rewrite E |].
      exists ps. split; [reflexivity | now apply Hiff].
    + eexists. split; [reflexivity |]. split; [reflexivity |].
      simpl. destruct pi; [discriminate | discriminate].
Qed.

Lemma extract_outcomes_witness :
  extract_text_from_pdf (fun p => p) "a.pdf" (Opened [PageText None])
  = (None, []).
Proof.
  apply (extract_outcomes (fun p => p) "a.pdf" (Opened [PageText None])).
  split; [reflexivity |]. eexists. split; reflexivity.
Defined.

End ExtractorFacts.

(** ** Page resolution *)

Module PagesFacts.
Import Py Extractor Pages.

Lemma span_total_app (ps qs : list page_info) :
  span_total (ps ++ qs) = span_total ps + span_total qs.
Proof.
  unfold span_total. induction ps as [| p ps IH]; simpl; [lia |].
  rewrite IH. lia.
Qed.

(** The walk answers at the first page whose running total exceeds the
    position. *)
Lemma walk_first_exceeding (position acc : Z)
    (pre : list page_info) (p : page_info) (post : list page_info) :
  (forall k, (1 <= k <= length pre)%nat ->
     acc + span_total (take k pre) <= position) ->
  position < acc + span_total (pre ++ [p]) ->
  walk position acc (pre ++ p :: post) = Some (page p).
Proof.
  revert acc. induction pre as [| x pre IH]; intros acc Hpre Hp; simpl.
  - unfold span_total in Hp. simpl in Hp.
    destruct (Z.ltb_spec position (acc + (char_count p + 2)));
      [reflexivity | lia].
  - pose proof (Hpre 1%nat ltac:(simpl; lia)) as H1.
    simpl in H1. unfold span_total in H1. simpl in H1.
    destruct (Z.ltb_spec position (acc + (char_count x + 2))); [lia |].
    apply IH.
    + intros k Hk. specialize (Hpre (S k) ltac:(simpl; lia)).
      simpl in Hpre. unfold span_total in *. simpl in Hpre. lia.
    + unfold span_total in *. simpl in Hp. lia.
Qed.

(** The walk runs off the end when no running total exceeds the position. *)
Lemma walk_past_all (position acc : Z) (pages : list page_info) :
  (forall k, (1 <= k <= length pages)%nat ->
     acc + span_total (take k pages) <= position) ->
  walk position acc pages = None.
Proof.
  revert acc. induction pages as [| x pages IH]; intros acc Hall; simpl;
    [reflexivity |].
  pose proof (Hall 1%nat ltac:(simpl; lia)) as H1.
  simpl in H1. unfold span_total in H1. simpl in H1.
  destruct (Z.ltb_spec position (acc + (char_count x + 2))); [lia |].
  apply IH. intros k Hk. specialize (Hall (S k) ltac:(simpl; lia)).
  simpl in Hall. unfold span_total in *. simpl in Hall. lia.
Qed.

(** C6 (as stated, refuted): a document whose first page has no text and
    whose second page reads "hello" is extracted with a page list that
    starts at page 2, and offset 0 resolves to page 2, not page 1. *)
Lemma offset_zero_not_page_one :
  exists d,
    fst (extract_text_from_pdf (fun p => p) "a.pdf"
           (Opened [PageText None; PageText (Some (s "hello"))]))
    = Some d
    /\ pages d <> []
    /\ _get_page_for_position 0 (pages d) <> 1.
Proof.
  eexists. split; [vm_compute; reflexivity |].
  split; [discriminate |]. vm_compute. discriminate.
Qed.

(** C6 (amended): [_get_page_for_position] adds [char_count + 2] per page
    and returns the number of the first page whose running total exceeds
    the offset; with a non-empty page list, offset 0 resolves to the number
    of the first recorded page (whose [char_count] is a length, so not
    negative), which is 1 only if page 1 yielded text; an offset that no
    running total exceeds resolves to the last recorded page's number; and
    with an empty page list the answer is 1. *)
Theorem get_page_for_position_spec (position : Z)
    (pages : list page_info) :
  (forall pre p post, pages = pre ++ p :: post ->
     (forall k, (1 <= k <= length pre)%nat ->
        span_total (take k pre) <= position) ->
     position < span_total (pre ++ [p]) ->
     _get_page_for_position position pages = page p)
  /\ (forall p post, pages = p :: post -> 0 <= char_count p ->
        _get_page_for_position 0 pages = page p)
  /\ (forall p, last pages = Some p ->
        (forall k, (1 <= k <= length pages)%nat ->
           span_total (take k pages) <= position) ->
        _get_page_for_position position pages = page p)
  /\ _get_page_for_position position [] = 1.
Proof.
  split; [| split; [| split]].
  - intros pre p post -> Hpre Hp. unfold _get_page_for_position.
    rewrite (walk_first_exceeding position 0 pre p post); [reflexivity | |].
    + intros k Hk. specialize (Hpre k Hk). lia.
    + lia.
  - intros p post -> Hc. unfold _get_page_for_position. simpl.
    destruct (Z.ltb_spec 0 (0 + (char_count p + 2))); [reflexivity | lia].
  - intros p Hlast Hall. unfold _get_page_for_position.
    rewrite walk_past_all, Hlast; [reflexivity |].
    intros k Hk. specialize (Hall k Hk). lia.
  - reflexivity.
Qed.

Lemma get_page_for_position_spec_witness :
  _get_page_for_position 7
    [PageInfo 2 (s "hello") 5; PageInfo 3 (s "world") 5] = 3
  /\ _get_page_for_position 0
       [PageInfo 2 (s "hello") 5; PageInfo 3 (s "world") 5] = 2
  /\ _get_page_for_position 14
       [PageInfo 2 (s "hello") 5; PageInfo 3 (s "world") 5] = 3.
Proof.
  split; [| split].
  - destruct (get_page_for_position_spec 7
                [PageInfo 2 (s "hello") 5; PageInfo 3 (s "world") 5])
      as (Hfirst & _).
    apply (Hfirst [PageInfo 2 (s "hello") 5]
             (PageInfo 3 (s "world") 5) []).
    + reflexivity.
    + intros k Hk. simpl in Hk. assert (k = 1%nat) as -> by lia.
      vm_compute. discriminate.
    + vm_compute. reflexivity.
  - destruct (get_page_for_position_spec 0
                [PageInfo 2 (s "hello") 5; PageInfo 3 (s "world") 5])
      as (_ & Hzero & _).
    apply (Hzero (PageInfo 2 (s "hello") 5)
             [PageInfo 3 (s "world") 5]); [reflexivity |].
    simpl. lia.
  - destruct (get_page_for_position_spec 14
                [PageInfo 2 (s "hello") 5; PageInfo 3 (s "world") 5])
      as (_ & _ & Hlast & _).
    apply (Hlast (PageInfo 3 (s "world") 5)).
    + reflexivity.
    + intros k Hk. simpl in Hk.
      assert (k = 1%nat \/ k = 2%nat) as [-> | ->] by lia;
        vm_compute; discriminate.
Defined.

End PagesFacts.

(** ** Record ids and re-ingestion *)

Module VectorizerFacts.
Import Vectorizer.

Section WithModel.
Context {embedding : Type}.
Variable encode : list string -> list embedding.

(** The encoder returns one vector per text (an order-preserving batch
    map). *)
Hypothesis encode_length :
  forall texts, length (encode texts) = length texts.

Abbreviation store := (gmap string (stored_record embedding)).

Local Abbreviation write := (write embedding).

(** Writing a batch is a left-biased union with the batch read backwards
    (the last record written under an id wins). *)
Lemma foldl_write (l : list (string * stored_record embedding))
    (c : store) :
  foldl write c l = list_to_map (reverse l) ∪ c.
Proof.
  revert c. induction l as [| [k v] l IH]; intros c; simpl.
  - now rewrite (left_id_L ∅ (∪)).
  - rewrite IH, reverse_cons, list_to_map_app. simpl.
    unfold Vectorizer.write at 1. simpl.
    rewrite insert_empty, <- (assoc_L (∪)).
    now rewrite <- insert_union_singleton_l.
Qed.

Lemma foldl_write_twice (l : list (string * stored_record embedding))
    (c : store) :
  foldl write (foldl write c l) l = foldl write c l.
Proof.
  rewrite !foldl_write, (assoc_L (∪)). f_equal. apply (idemp_L (∪)).
Qed.

Lemma dom_foldl_write (l : list (string * stored_record embedding))
    (c : store) :
  dom (foldl write c l) = list_to_set l.*1 ∪ dom c.
Proof.
  revert c. induction l as [| [k v] l IH]; intros c; simpl.
  - now rewrite (left_id_L ∅ (∪)).
  - rewrite IH. unfold Vectorizer.write. simpl. rewrite dom_insert_L.
    rewrite !(assoc_L (∪)). f_equal. apply (comm_L (∪)).
Qed.

Lemma collection_add_twice embeddings documents metadatas ids (c : store) :
  collection_add embedding embeddings documents metadatas ids
    (collection_add embedding embeddings documents metadatas ids c)
  = collection_add embedding embeddings documents metadatas ids c.
Proof. apply foldl_write_twice. Qed.

Lemma batch_ids embeddings documents metadatas ids :
  length embeddings = length ids -> length documents = length ids ->
  length metadatas = length ids ->
  (batch embedding embeddings documents metadatas ids).*1 = ids.
Proof.
  revert embeddings documents metadatas.
  induction ids as [| i ids IH];
    intros [| e es] [| d ds] [| m ms]; simpl; try discriminate;
    try reflexivity.
  intros [= He] [= Hd] [= Hm]. f_equal. now apply IH.
Qed.

(** Each id is the source, an underscore and the printed chunk index. *)
Lemma record_ids_shape (metadatas : list metadata) (ids : list string) :
  mapM record_id metadatas = Some ids ->
  Forall2 (fun m i => exists src idx,
             source m = Some src /\ chunk_index m = Some idx
             /\ i = src +:+ "_" +:+ pretty idx) metadatas ids.
Proof.
  intros H. apply mapM_Some_1 in H.
  eapply Forall2_impl; [exact H |].
  intros m i Hi. unfold record_id in Hi.
  destruct (source m) as [src |]; [| discriminate].
  destruct (chunk_index m) as [idx |]; [| discriminate].
  simpl in Hi. inversion Hi. eauto.
Qed.

(** C8: every record id is the source, an underscore and the printed
    chunk index of the record's metadata, so the ids are a function of
    the chunks alone; after a successful [add_documents] the stored ids
    are those of the chunks together with the ones held before, and adding
    the same chunks again succeeds and leaves the collection as it was:
    the same ids, the same total count and the same count for every
    source. *)
Theorem add_documents_reingest (chunks : list processed_chunk)
    (collection stored : store) :
  add_documents embedding encode chunks collection = Some stored ->
  exists ids,
    mapM record_id (chunk_metadata <$> chunks) = Some ids
    /\ Forall2 (fun c i => exists src idx,
                  source (chunk_metadata c) = Some src
                  /\ chunk_index (chunk_metadata c) = Some idx
                  /\ i = src +:+ "_" +:+ pretty idx) chunks ids
    /\ dom stored = list_to_set ids ∪ dom collection
    /\ exists again,
         add_documents embedding encode chunks stored = Some again
         /\ dom again = dom stored
         /\ get_collection_count embedding again
            = get_collection_count embedding stored
         /\ forall src,
              count_for_source embedding src again
              = count_for_source embedding src stored.
Proof.
  intros Hadd. destruct chunks as [| c chunks].
  - simpl in Hadd. inversion Hadd; subst stored. exists [].
    split; [reflexivity |]. split; [constructor |].
    split; [simpl; now rewrite (left_id_L ∅ (∪)) |].
    exists collection. repeat split; reflexivity.
  - remember (c :: chunks) as cs eqn:Hcs.
    assert (Hunfold : forall col,
              add_documents embedding encode cs col
              = ids ← mapM record_id (chunk_metadata <$> cs);
                Some (collection_add embedding (encode (text <$> cs))
                        (text <$> cs) (chunk_metadata <$> cs) ids col)).
    { intros col. subst cs. reflexivity. }
    clear Hcs. rewrite Hunfold in Hadd.
    destruct (mapM record_id (chunk_metadata <$> cs)) as [ids |] eqn:Hids;
      [| discriminate].
    simpl in Hadd. injection Hadd as Hstored. subst stored. exists ids.
    split; [reflexivity |].
    pose proof (record_ids_shape _ _ Hids) as Hshape.
    split; [now apply Forall2_fmap_l in Hshape |].
    assert (Hlen : length ids = length cs).
    { apply Forall2_length in Hshape. now rewrite length_fmap in Hshape. }
    split.
    + unfold collection_add. rewrite dom_foldl_write.
      rewrite batch_ids;
        rewrite ?encode_length, ?length_fmap; auto.
    + eexists. split; [| repeat split; reflexivity].
      rewrite Hunfold. simpl. now rewrite collection_add_twice.
Qed.

End WithModel.

Lemma add_documents_reingest_witness :
  exists stored,
    add_documents unit (fmap (fun _ => tt)) demo_chunks ∅ = Some stored
    /\ dom stored = {["a.pdf_0"; "a.pdf_1"]}
    /\ add_documents unit (fmap (fun _ => tt)) demo_chunks stored
       = Some stored.
Proof.
  eexists. split; [reflexivity |].
  destruct (add_documents_reingest (fmap (fun _ => tt))
              (fun texts => length_fmap _ texts) demo_chunks ∅ _ eq_refl)
    as (ids & Hids & _ & Hdom & again & Hadd & _).
  split.
  - rewrite Hdom. vm_compute in Hids. inversion Hids; subst ids.
    simpl. rewrite dom_empty_L. now rewrite !(right_id_L ∅ (∪)).
  - vm_compute. reflexivity.
Defined.

End VectorizerFacts.

(** ** Context assembly and source deduplication *)

Module RagFacts.
Import Rag.

Lemma app_cons (a : ascii) (x y : string) :
  String a x +:+ y = String a (x +:+ y).
Proof. reflexivity. Qed.

Lemma all_chars_app (P : ascii -> bool) (x y : string) :
  all_chars P (x +:+ y) = all_chars P x && all_chars P y.
Proof.
  induction x as [| a x IH]; [reflexivity |].
  rewrite app_cons. simpl. rewrite IH. apply andb_assoc.
Qed.

Lemma all_chars_impl (P Q : ascii -> bool) (x : string) :
  (forall c, P c = true -> Q c = true) ->
  all_chars P x = true -> all_chars Q x = true.
Proof.
  intros HPQ. induction x as [| a x IH]; simpl; [reflexivity |].
  intros [Ha Hx]%andb_true_iff. rewrite (HPQ _ Ha). simpl. auto.
Qed.

(** A string is cut in only one way at the last occurrence of a separator:
    if [c] occurs in neither tail, equal strings have equal parts. *)
Lemma split_at_last (c : ascii) (P : ascii -> bool) (s1 s2 u1 u2 : string) :
  P c = false -> all_chars P u1 = true -> all_chars P u2 = true ->
  s1 +:+ String c u1 = s2 +:+ String c u2 -> s1 = s2 /\ u1 = u2.
Proof.
  intros Hc H1 H2. revert s2.
  induction s1 as [| a s1 IH]; intros [| b s2] E.
  - injection E as E. auto.
  - exfalso. rewrite app_cons in E. injection E as _ E.
    rewrite E, all_chars_app in H1. simpl in H1. rewrite Hc in H1.
    simpl in H1. rewrite andb_false_r in H1. discriminate.
  - exfalso. rewrite app_cons in E. injection E as _ E.
    rewrite <- E, all_chars_app in H2. simpl in H2. rewrite Hc in H2.
    simpl in H2. rewrite andb_false_r in H2. discriminate.
  - rewrite !app_cons in E. injection E as -> E.
    destruct (IH _ E) as [-> ->]. auto.
Qed.

Lemma pretty_N_char_int (d : N) : int_char (pretty_N_char d) = true.
Proof. unfold pretty_N_char. repeat case_match; reflexivity. Qed.

Lemma pretty_N_go_int (x : N) (acc : string) :
  all_chars int_char acc = true ->
  all_chars int_char (pretty_N_go x acc) = true.
Proof.
  revert acc. induction (N.lt_wf_0 x) as [x _ IH]; intros acc Hacc.
  destruct (decide (x = 0%N)) as [-> | Hx].
  - now rewrite pretty_N_go_0.
  - rewrite pretty_N_go_step by lia. apply IH.
    + apply N.div_lt; lia.
    + simpl. now rewrite pretty_N_char_int.
Qed.

(** A printed integer consists of digits and at most a minus sign. *)
Lemma pretty_Z_int (z : Z) : all_chars int_char (pretty z) = true.
Proof.
  assert (HN : forall n : N, all_chars int_char (pretty n) = true).
  { intros n. unfold pretty, pretty_N.
    destruct (decide (n = 0%N)); [reflexivity |].
    now apply pretty_N_go_int. }
  destruct z as [| p | p]; [reflexivity | apply HN |].
  unfold pretty, pretty_Z. rewrite app_cons. simpl. apply HN.
Qed.

Lemma str_page_inj (p q : page_ref) : str_page p = str_page q -> p = q.
Proof.
  destruct p as [n |], q as [m |]; simpl; intros E.
  - f_equal. now apply (inj pretty).
  - pose proof (pretty_Z_int n) as H. rewrite E in H. discriminate.
  - pose proof (pretty_Z_int m) as H. rewrite <- E in H. discriminate.
  - reflexivity.
Qed.

Lemma str_page_no_underscore (p : page_ref) :
  all_chars (fun c => negb (Ascii.eqb c "_")) (str_page p) = true.
Proof.
  destruct p as [n |]; [| reflexivity].
  apply (all_chars_impl int_char); [| apply pretty_Z_int].
  intros c Hc. destruct (Ascii.eqb_spec c "_") as [-> | _];
    [discriminate | reflexivity].
Qed.

(** The key of line 35 determines the source and the page. *)
Lemma source_key_inj (s1 s2 : string) (p1 p2 : page_ref) :
  source_key s1 p1 = source_key s2 p2 -> s1 = s2 /\ p1 = p2.
Proof.
  unfold source_key. intros E.
  change (s1 +:+ String "_" (String "p" (str_page p1))
          = s2 +:+ String "_" (String "p" (str_page p2))) in E.
  apply (split_at_last _ (fun c => negb (Ascii.eqb c "_"))) in E.
  - destruct E as [-> E]. injection E as E.
    split; [reflexivity | now apply str_page_inj].
  - reflexivity.
  - simpl. apply str_page_no_underscore.
  - simpl. apply str_page_no_underscore.
Qed.

(** What a pass does to the list of sources, in terms of pairs. *)
Lemma query_body_sources (st : loop_state) (i : Z) (r : search_result)
    (seen : list (string * page_ref)) :
  (forall pr, source_key pr.1 pr.2 ∈ seen_sources st <-> pr ∈ seen) ->
  context_parts (query_body st i r)
  = context_parts st ++ [context_part i (text r)]
  /\ if decide (source_pair r ∈ seen)
     then cur_sources (query_body st i r) = cur_sources st
          /\ seen_sources (query_body st i r) = seen_sources st
     else cur_sources (query_body st i r) = cur_sources st ++ [source_of r]
          /\ forall pr, source_key pr.1 pr.2 ∈ seen_sources (query_body st i r)
                        <-> pr ∈ seen ++ [source_pair r].
Proof.
  intros Hseen. unfold query_body.
  pose proof (Hseen (source_pair r)) as Hr. simpl in Hr.
  destruct (decide (source_key (get_source (metadata r))
                      (get_page (metadata r)) ∈ seen_sources st))
    as [Hin | Hout]; simpl.
  - split; [reflexivity |].
    destruct (decide (source_pair r ∈ seen)); [auto | tauto].
  - split; [reflexivity |].
    destruct (decide (source_pair r ∈ seen)); [tauto |].
    split; [reflexivity |].
    intros [s0 p0]. simpl. rewrite elem_of_union, elem_of_singleton.
    rewrite elem_of_app, list_elem_of_singleton.
    rewrite (Hseen (s0, p0)). unfold source_pair. split.
    + intros [E | H]; [| now left].
      apply source_key_inj in E as [-> ->]. now right.
    + intros [H | E]; [now right |]. injection E as -> ->. now left.
Qed.

(** The loop appends one numbered entry per result, and one source per
    result whose pair has not come before. *)
Lemma query_loop_spec (rs : list search_result) :
  forall (st : loop_state) (i : Z) (seen : list (string * page_ref)),
    (forall pr, source_key pr.1 pr.2 ∈ seen_sources st <-> pr ∈ seen) ->
    context_parts (query_loop st i rs)
    = context_parts st
      ++ imap (fun k r => context_part (Z.of_nat k + i) (text r)) rs
    /\ cur_sources (query_loop st i rs)
       = cur_sources st ++ (source_of <$> kept_after seen rs).
Proof.
  induction rs as [| r rs IH]; intros st i seen Hseen; simpl.
  - now rewrite !app_nil_r.
  - destruct (query_body_sources st i r seen Hseen) as [Hparts Hsrc].
    destruct (decide (source_pair r ∈ seen)) as [Hin | Hout].
    + destruct Hsrc as [Hs Hset].
      destruct (IH (query_body st i r) (i + 1) seen) as [IHp IHs].
      { intros pr. rewrite Hset. apply Hseen. }
      rewrite IHp, IHs, Hparts, Hs. split; [| reflexivity].
      rewrite <- app_assoc. simpl. do 2 f_equal.
      apply imap_ext. intros k x _. simpl. f_equal. lia.
    + destruct Hsrc as [Hs Hset].
      destruct (IH (query_body st i r) (i + 1) (seen ++ [source_pair r])
                  Hset) as [IHp IHs].
      rewrite IHp, IHs, Hparts, Hs. split.
      * rewrite <- app_assoc. simpl. do 2 f_equal.
        apply imap_ext. intros k x _. simpl. f_equal. lia.
      * now rewrite <- app_assoc.
Qed.

(** Only membership in the pairs that came before matters. *)
Lemma kept_after_equiv (seen seen' : list (string * page_ref))
    (rs : list search_result) :
  (forall pr, pr ∈ seen <-> pr ∈ seen') ->
  kept_after seen rs = kept_after seen' rs.
Proof.
  revert seen seen'. induction rs as [| r rs IH]; intros seen seen' E;
    simpl; [reflexivity |].
  destruct (decide (source_pair r ∈ seen)) as [H | H];
    destruct (decide (source_pair r ∈ seen')) as [H' | H'];
    try (apply E in H; contradiction);
    try (apply E in H'; contradiction).
  - now apply IH.
  - f_equal. apply IH. intros pr. rewrite !elem_of_app, E. tauto.
Qed.

(** Keeping what has not come before is keeping first occurrences. *)
Lemma kept_after_prefix (pre rest : list search_result) :
  kept_after (source_pair <$> pre) rest
  = omap id
      (imap (fun k r =>
               if decide (source_pair r
                          ∈ source_pair <$> take (length pre + k)
                                              (pre ++ rest))
               then None else Some r)
         rest).
Proof.
  revert pre. induction rest as [| r rest IH]; intros pre; simpl;
    [reflexivity |].
  rewrite Nat.add_0_r, take_app_length.
  assert (Htail :
    omap id
      (imap ((fun k r0 =>
                if decide (source_pair r0
                           ∈ source_pair <$> take (length pre + k)
                                               (pre ++ r :: rest))
                then None else Some r0) ∘ S) rest)
    = kept_after (source_pair <$> (pre ++ [r])) rest).
  { rewrite IH. f_equal. apply imap_ext. intros k x _. simpl.
    rewrite length_app. simpl.
    replace (length pre + 1 + k)%nat with (length pre + S k)%nat by lia.
    now rewrite <- app_assoc. }
  change (list_omap (option search_result) search_result id)
    with (@omap list _ (option search_result) search_result id).
  destruct (decide (source_pair r ∈ source_pair <$> pre)); simpl.
  - change (list_omap (option search_result) search_result id)
      with (@omap list _ (option search_result) search_result id).
    rewrite Htail. rewrite fmap_app. simpl.
    apply kept_after_equiv. intros pr. rewrite elem_of_app.
    split; [now left |]. intros [H | H]; [exact H |].
    apply list_elem_of_singleton in H. now subst pr.
  - change (list_omap (option search_result) search_result id)
      with (@omap list _ (option search_result) search_result id).
    rewrite Htail. now rewrite fmap_app.
Qed.

Lemma first_occurrences_kept (rs : list search_result) :
  first_occurrences rs = kept_after [] rs.
Proof. symmetry. apply (kept_after_prefix [] rs). Qed.

(** The sources of a query are the records of the first occurrences. *)
Lemma query_sources (rs : list search_result) :
  sources (query rs) = source_of <$> first_occurrences rs.
Proof.
  rewrite first_occurrences_kept. destruct rs as [| r rs]; [reflexivity |].
  unfold query. cbn [sources].
  destruct (query_loop_spec (r :: rs) init 1 []) as [_ H]; [| exact H].
  intros pr. simpl. rewrite elem_of_empty, elem_of_nil. tauto.
Qed.

(** C7: [query] numbers the results from 1 in rank order, renders result
    [i] as ["[i] <text>"] and joins the entries with a blank line to form
    [context]; [sources] holds, in rank order, the record of every result
    that no higher-ranked result precedes with the same [(source, page)]
    pair, so a later occurrence of a pair adds nothing to [sources] while
    its numbered entry is in [context]. *)
Theorem query_context_and_sources (results : list search_result) :
  context (query results)
  = String.concat blank_line
      (imap (fun k r => "[" +:+ pretty (Z.of_nat k + 1) +:+ "] " +:+ text r)
         results)
  /\ sources (query results) = source_of <$> first_occurrences results.
Proof.
  split; [| apply query_sources].
  destruct results as [| r rs]; [reflexivity |].
  unfold query. cbn [context].
  destruct (query_loop_spec (r :: rs) init 1 []) as [H _].
  - intros pr. simpl. rewrite elem_of_empty, elem_of_nil. tauto.
  - rewrite H. reflexivity.
Qed.

End RagFacts.

(** ** The relevance score *)

Module RelevanceFacts.
Import Rag RagFacts.

Lemma digits2_pos_bounds (p : positive) :
  2 ^ (Zpos (digits2_pos p) - 1) <= Zpos p < 2 ^ Zpos (digits2_pos p).
Proof.
  induction p as [p IH | p IH |]; simpl digits2_pos;
    [| | simpl; lia].
  - rewrite Pos2Z.inj_succ.
    replace (Z.succ (Zpos (digits2_pos p)) - 1)
      with (Z.succ (Zpos (digits2_pos p) - 1)) by lia.
    rewrite !Z.pow_succ_r by lia. lia.
  - rewrite Pos2Z.inj_succ.
    replace (Z.succ (Zpos (digits2_pos p)) - 1)
      with (Z.succ (Zpos (digits2_pos p) - 1)) by lia.
    rewrite !Z.pow_succ_r by lia. lia.
Qed.

Lemma digits2_pos_shift (k d : positive) :
  digits2_pos (Pos.iter xO k d) = (digits2_pos k + d)%positive.
Proof.
  induction d as [| d IH] using Pos.peano_ind.
  - simpl. lia.
  - rewrite Pos.iter_succ. simpl. rewrite IH. lia.
Qed.

(** Rounding a negative integer of at most 52 bits, scaled by [2^-52]:
    nothing is lost and the result is a negative finite number. *)
Lemma binary_round_small (k : positive) :
  Zpos k < 2 ^ 52 ->
  exists m e, binary_round prec emax true k (-52) = S754_finite true m e.
Proof.
  intros Hk. pose proof (digits2_pos_bounds k) as Hd.
  set (d := Zpos (digits2_pos k)) in *.
  assert (Hd52 : 1 <= d <= 52).
  { split; [unfold d; lia |].
    destruct (Z.le_gt_cases d 52) as [H | H]; [exact H | exfalso].
    assert (2 ^ 52 <= 2 ^ (d - 1)) by (apply Z.pow_le_mono_r; lia). lia. }
  unfold binary_round.
  assert (Hfexp : fexp prec emax (Zpos (digits2_pos k) + -52) = d - 105).
  { unfold fexp, SpecFloat.emin, prec, emax. fold d. lia. }
  rewrite Hfexp. unfold shl_align.
  destruct (d - 105 - -52) as [| q | q] eqn:Hq; [lia | lia |].
  unfold binary_round_aux, shr_fexp. simpl Zdigits2.
  rewrite digits2_pos_shift. fold d.
  assert (Hfexp' : fexp prec emax (Zpos (digits2_pos k + q) + (d - 105))
                   - (d - 105) = 0).
  { unfold fexp, SpecFloat.emin, prec, emax.
    rewrite Pos2Z.inj_add. fold d. lia. }
  rewrite Hfexp'. simpl. rewrite digits2_pos_shift, Hfexp'. simpl.
  destruct (Z.leb_spec (d - 105) (emax - prec)) as [_ | H];
    [eauto | unfold emax, prec in H; lia].
Qed.

(** [1.0 - d] for a double [d] between 1 (excluded) and 2 (excluded). *)
Lemma one_minus_above_one (m : positive) :
  4503599627370496 < Zpos m ->
  Zpos m < 9007199254740992 ->
  exists m' e',
    f_sub f_one (S754_finite false m (-52)) = S754_finite true m' e'.
Proof.
  intros Hlo Hhi. unfold f_sub, f_one, SFsub.
  change (Z.min (-52) (-52)) with (-52).
  unfold shl_align. change (-52 - -52) with 0. cbn [fst cond_Zopp].
  change (Zpos 4503599627370496 - Zpos m)
    with (Z.pos_sub 4503599627370496 m).
  rewrite Z.pos_sub_lt by lia.
  unfold binary_normalize. apply binary_round_small.
  change (2 ^ 52) with 4503599627370496. lia.
Qed.

Lemma compare_cont_lt (a b : positive) :
  Pos.compare_cont Eq a b = Lt -> Zpos a < Zpos b.
Proof. intros H. apply Pos2Z.pos_lt_pos. exact H. Qed.

Lemma compare_cont_not_gt (a b : positive) :
  Pos.compare_cont Eq a b <> Gt -> Zpos a <= Zpos b.
Proof. intros H. apply Pos2Z.pos_le_pos. exact H. Qed.

(** The doubles in (1, 2]. *)
Lemma between_one_and_two (d : float) :
  valid_binary prec emax d = true ->
  f_lt f_one d = true -> f_le d f_two = true ->
  d = f_two
  \/ exists m, d = S754_finite false m (-52)
       /\ 4503599627370496 < Zpos m < 9007199254740992.
Proof.
  intros Hvalid Hlt Hle.
  destruct d as [sg | sg | | sg m e]; try destruct sg; try discriminate.
  unfold f_lt, f_one, SFltb, SFcompare in Hlt.
  unfold f_le, f_two, SFleb, SFcompare in Hle.
  simpl in Hvalid. unfold bounded, canonical_mantissa in Hvalid.
  apply andb_true_iff in Hvalid as [Hcanon _].
  apply Z.eqb_eq in Hcanon.
  unfold fexp, SpecFloat.emin, prec, emax in Hcanon.
  pose proof (digits2_pos_bounds m) as Hd.
  destruct (Z.compare_spec (-52) e) as [He | He | He];
    [| | discriminate].
  - right. subst e. exists m. split; [reflexivity |].
    assert (Hless : Zpos 4503599627370496 < Zpos m).
    { apply compare_cont_lt.
      destruct (Pos.compare_cont Eq 4503599627370496 m);
        [discriminate Hlt | reflexivity | discriminate Hlt]. }
    assert (Zpos (digits2_pos m) = 53) as Hm by lia.
    rewrite Hm in Hd. change (2 ^ 53) with 9007199254740992 in Hd. lia.
  - left. destruct (Z.compare_spec e (-51)) as [He' | He' | He'];
      [| lia | discriminate].
    subst e.
    assert (Zpos (digits2_pos m) = 53) as Hm by lia.
    rewrite Hm in Hd. change (2 ^ (53 - 1)) with 4503599627370496 in Hd.
    assert (Hmost : Zpos m <= Zpos 4503599627370496).
    { apply compare_cont_not_gt. intros Hgt. rewrite Hgt in Hle.
      discriminate Hle. }
    assert (m = 4503599627370496%positive) as -> by lia.
    reflexivity.
Qed.

Lemma kept_after_subseteq (seen : list (string * page_ref))
    (rs : list search_result) (r : search_result) :
  r ∈ kept_after seen rs -> r ∈ rs.
Proof.
  revert seen. induction rs as [| x rs IH]; intros seen; simpl;
    [intros H; exact H |].
  destruct (decide (source_pair x ∈ seen)).
  - intros H. right. eapply IH, H.
  - intros [-> | H]%elem_of_cons; [now left |]. right. eapply IH, H.
Qed.

(** C9: every record of [sources] is built from a kept result, and its
    [relevance_score] is [None] when that result has no distance or a
    distance equal to zero, and [1.0 - distance] otherwise; so a distance
    of zero, of either sign, gives [None], and every double greater than 1
    and at most 2 gives a score below zero. *)
Theorem relevance_score_spec (results : list search_result) :
  Forall (fun rec =>
            exists r, r ∈ first_occurrences results /\ r ∈ results
              /\ rec = source_of r
              /\ relevance_score rec
                 = match distance r with
                   | Some d =>
                       if SFeqb d (S754_zero false) then None
                       else Some (SFsub 53 1024 f_one d)
                   | None => None
                   end)
    (sources (query results))
  /\ (forall sign, relevance (Some (S754_zero sign)) = None)
  /\ (forall d, valid_binary prec emax d = true ->
        f_lt f_one d = true -> f_le d f_two = true ->
        exists x, relevance (Some d) = Some x /\ f_lt x f_zero = true).
Proof.
  split; [| split].
  - rewrite query_sources, first_occurrences_kept.
    apply Forall_fmap, Forall_forall. intros r Hr. simpl.
    exists r. split; [exact Hr |].
    split; [eapply kept_after_subseteq, Hr |].
    split; [reflexivity |]. unfold relevance, f_truthy, f_sub.
    destruct (distance r) as [d |]; [| reflexivity].
    unfold f_zero, prec, emax. now destruct (SFeqb d (S754_zero false)).
  - intros sign. reflexivity.
  - intros d Hvalid Hlt Hle.
    destruct (between_one_and_two d Hvalid Hlt Hle)
      as [-> | (m & -> & Hlo & Hhi)].
    + eexists. split; vm_compute; reflexivity.
    + destruct (one_minus_above_one m Hlo Hhi) as (m' & e' & E).
      exists (S754_finite true m' e'). split; [| reflexivity].
      unfold relevance. rewrite E. reflexivity.
Qed.

Lemma relevance_score_spec_witness :
  exists x,
    relevance (Some (S754_finite false 6755399441055744 (-52))) = Some x
    /\ f_lt x f_zero = true.
Proof.
  apply (relevance_score_spec []); vm_compute; reflexivity.
Defined.

End RelevanceFacts.

(** ** More on the chunking loop *)

Module ChunkerMore.
Import Py PyFacts Chunker ChunkerFacts.

Lemma lstrip_head (t : str) (c : ascii) (rest : str) :
  lstrip t = c :: rest -> isspace c = false.
Proof.
  induction t as [| x t IH]; simpl; [discriminate |].
  destruct (isspace x) eqn:E; [exact IH |]. intros [= <- _]. exact E.
Qed.

(** [lstrip] drops a prefix of whitespace. *)
Lemma lstrip_suffix (t : str) :
  exists w, t = w ++ lstrip t /\ Forall (fun c => isspace c = true) w.
Proof.
  induction t as [| x t (w & Hw & Hall)]; simpl.
  - exists []. split; [reflexivity | constructor].
  - destruct (isspace x) eqn:E.
    + exists (x :: w). split; [simpl; now f_equal | now constructor].
    + exists []. split; [reflexivity | constructor].
Qed.

(** [rstrip] drops a suffix of whitespace. *)
Lemma rstrip_prefix (t : str) :
  exists w, t = rstrip t ++ w /\ Forall (fun c => isspace c = true) w.
Proof.
  unfold rstrip. destruct (lstrip_suffix (rev t)) as (w & Hw & Hall).
  exists (rev w). split.
  - apply (f_equal (@rev ascii)) in Hw.
    now rewrite rev_involutive, rev_app_distr in Hw.
  - apply Forall_forall. intros c Hc. apply list_elem_of_In, in_rev in Hc.
    rewrite Forall_forall in Hall. apply Hall. now apply list_elem_of_In.
Qed.

Lemma strip_head (t : str) (c : ascii) (rest : str) :
  strip t = c :: rest -> isspace c = false.
Proof.
  unfold strip. intros E.
  destruct (rstrip_prefix (lstrip t)) as (w & Hw & _).
  rewrite E in Hw. simpl in Hw. exact (lstrip_head _ _ _ Hw).
Qed.

Lemma last_rev (t : str) : last (rev t) = head t.
Proof. rewrite rev_alt. apply (last_reverse t). Qed.

Lemma strip_last (t : str) (c : ascii) :
  last (strip t) = Some c -> isspace c = false.
Proof.
  unfold strip, rstrip. rewrite last_rev.
  destruct (lstrip (rev (lstrip t))) as [| x rest] eqn:E; [discriminate |].
  intros [= <-]. exact (lstrip_head _ _ _ E).
Qed.

(** A text that strips to nothing is all whitespace. *)
Lemma strip_nil_spaces (t : str) :
  strip t = [] -> Forall (fun c => isspace c = true) t.
Proof.
  unfold strip. intros E.
  destruct (rstrip_prefix (lstrip t)) as (w & Hw & Hall).
  rewrite E in Hw. simpl in Hw.
  destruct (lstrip_suffix t) as (v & Hv & Hallv).
  rewrite Hv. apply Forall_app. split; [exact Hallv | now rewrite Hw].
Qed.

(** A text that does not strip to nothing has a character that is not
    whitespace. *)
Lemma strip_cons_nonspace (t : str) :
  strip t <> [] -> exists c, c ∈ t /\ isspace c = false.
Proof.
  intros Hne. destruct (strip t) as [| c rest] eqn:E; [contradiction |].
  exists c. split; [| exact (strip_head _ _ _ E)].
  apply CleanerFacts.strip_subseteq. rewrite E. now left.
Qed.

Lemma slice_subseteq (t : str) (lo hi : Z) (c : ascii) :
  c ∈ slice t lo hi -> c ∈ t.
Proof. intros H. unfold slice in H. eapply subseteq_drop, subseteq_take, H. Qed.

(** The two ways a pass can end. *)
Lemma chunk_body_cases (t : str) (cs ov : Z) (st : loop_state) :
  let e := chunk_end t (cur_start st) cs in
  let u := strip (slice t (cur_start st) e) in
  (u = [] /\ chunks (chunk_body t cs ov st) = chunks st
   /\ cur_index (chunk_body t cs ov st) = cur_index st)
  \/ (u <> []
      /\ chunks (chunk_body t cs ov st)
         = chunks st ++ [Chunk u (cur_start st) e (cur_index st) (len u)]
      /\ cur_index (chunk_body t cs ov st) = cur_index st + 1).
Proof.
  intros e u. unfold chunk_body. fold e. fold u.
  destruct u as [| c rest]; simpl;
    [left; auto | right; split; [discriminate | auto]].
Qed.

Lemma after_succ (n : nat) (t : str) (cs ov : Z) :
  after (S n) t cs ov = chunk_body t cs ov (after n t cs ov).
Proof. reflexivity. Qed.

(** What the loop has emitted after [n] passes: the chunks are numbered from
    0, and each one is the trimmed, non-empty window of an earlier pass. *)
Lemma after_chunks_inv (t : str) (cs ov : Z) (n : nat) :
  cur_index (after n t cs ov)
  = Z.of_nat (length (chunks (after n t cs ov)))
  /\ forall (i : nat) (c : chunk),
       chunks (after n t cs ov) !! i = Some c ->
       chunk_index c = Z.of_nat i
       /\ exists k, (k < n)%nat
            /\ start c = cur_start (after k t cs ov)
            /\ end_ c = chunk_end t (start c) cs
            /\ text c = strip (slice t (start c) (end_ c))
            /\ text c <> []
            /\ char_count c = len (text c).
Proof.
  induction n as [| n [IHi IHc]].
  - split; [reflexivity |]. intros i c H. simpl in H.
    now rewrite lookup_nil in H.
  - rewrite after_succ.
    destruct (chunk_body_cases t cs ov (after n t cs ov))
      as [(Hu & -> & ->) | (Hu & -> & ->)].
    + split; [exact IHi |]. intros i c H.
      destruct (IHc i c H) as (Hidx & k & Hk & Hrest).
      split; [exact Hidx |]. exists k. split; [lia | exact Hrest].
    + split; [rewrite length_app; simpl; lia |]. intros i c H.
      apply lookup_app_Some in H as [H | [Hlen H]].
      * destruct (IHc i c H) as (Hidx & k & Hk & Hrest).
        split; [exact Hidx |]. exists k. split; [lia | exact Hrest].
      * destruct (i - length (chunks (after n t cs ov)))%nat as [| j] eqn:Ej;
          [| simpl in H; now rewrite lookup_nil in H].
        simpl in H. injection H as <-. simpl.
        split; [lia |]. exists n. split; [lia |]. auto.
Qed.

(** A pass whose trimmed window is not empty leaves a chunk for it, and later
    passes keep it. *)
Lemma after_chunks_kept (t : str) (cs ov : Z) (k n : nat) :
  (k < n)%nat ->
  strip (slice t (cur_start (after k t cs ov))
           (chunk_end t (cur_start (after k t cs ov)) cs)) <> [] ->
  exists c, c ∈ chunks (after n t cs ov)
    /\ start c = cur_start (after k t cs ov)
    /\ end_ c = chunk_end t (cur_start (after k t cs ov)) cs.
Proof.
  intros Hk Hne. induction n as [| n IH]; [lia |].
  rewrite after_succ.
  destruct (Nat.eq_dec k n) as [-> | Hkn].
  - destruct (chunk_body_cases t cs ov (after n t cs ov))
      as [(Hu & _) | (_ & -> & _)]; [contradiction |].
    eexists. split; [apply elem_of_app; right; now left |]. simpl. auto.
  - destruct IH as (c & Hc & Hs & He); [lia |].
    exists c. split; [| auto].
    destruct (chunk_body_cases t cs ov (after n t cs ov))
      as [(_ & -> & _) | (_ & -> & _)]; [exact Hc |].
    apply elem_of_app. now left.
Qed.

(** When [chunk_text] returns, it returns the chunks of the first state whose
    cursor is at or past the end of the text. *)
Lemma chunk_loop_exit (fuel : nat) (t : str) (cs ov : Z) (st : loop_state)
    (r : list chunk) :
  chunk_loop fuel t cs ov st = Some r ->
  exists n, r = chunks (Nat.iter n (chunk_body t cs ov) st)
    /\ len t <= cur_start (Nat.iter n (chunk_body t cs ov) st)
    /\ forall k, (k < n)%nat ->
         cur_start (Nat.iter k (chunk_body t cs ov) st) < len t.
Proof.
  revert st. induction fuel as [| fuel IH]; intros st; simpl;
    destruct (Z.ltb_spec (cur_start st) (len t)) as [Hlt | Hge];
    try discriminate.
  - intros [= <-]. exists 0%nat. simpl. split; [reflexivity |].
    split; [lia |]. intros k Hk. lia.
  - intros H. destruct (IH _ H) as (n & -> & Hexit & Hbefore).
    exists (S n). rewrite Nat.iter_succ_r. split; [reflexivity |].
    split; [exact Hexit |]. intros [| k] Hk; [exact Hlt |].
    rewrite Nat.iter_succ_r. apply Hbefore. lia.
  - intros [= <-]. exists 0%nat. simpl. split; [reflexivity |].
    split; [lia |]. intros k Hk. lia.
Qed.

Lemma returns_exit (t : str) (cs ov : Z) (r : list chunk) :
  returns t cs ov r ->
  exists n, r = chunks (after n t cs ov)
    /\ len t <= cur_start (after n t cs ov)
    /\ forall k, (k < n)%nat -> cur_start (after k t cs ov) < len t.
Proof. intros [fuel H]. exact (chunk_loop_exit _ _ _ _ _ _ H). Qed.

End ChunkerMore.

(** ** Further properties of [chunk_text] *)

Module ChunkerExtras.
Import Py PyFacts Chunker ChunkerFacts ChunkerMore.

(** X1: the chunks [chunk_text] returns are numbered in order from 0:
    the chunk at position [i] of the list has [chunk_index = i], whatever
    passes emitted nothing in between. *)
Theorem chunk_index_is_position (t : str) (chunk_size overlap : Z)
    (r : list chunk) :
  returns t chunk_size overlap r ->
  forall (i : nat) (c : chunk), r !! i = Some c -> chunk_index c = Z.of_nat i.
Proof.
  intros Hr i c Hc. destruct (returns_exit _ _ _ _ Hr) as (n & -> & _).
  destruct (after_chunks_inv t chunk_size overlap n) as [_ H].
  exact (proj1 (H i c Hc)).
Qed.

Lemma chunk_index_is_position_witness :
  chunk_index (Chunk (s "fgh") 5 15 1 3) = Z.of_nat 1.
Proof.
  apply (chunk_index_is_position (s "abcdefgh") 10 5
           [Chunk (s "abcdefgh") 0 10 0 8; Chunk (s "fgh") 5 15 1 3]).
  - exists 2%nat. vm_compute. reflexivity.
  - reflexivity.
Defined.

(** X2: no returned chunk is empty, and none begins or ends with a
    whitespace character; its [char_count] is at least 1. *)
Theorem chunk_text_trimmed (t : str) (chunk_size overlap : Z)
    (r : list chunk) :
  returns t chunk_size overlap r ->
  Forall (fun c =>
            text c <> []
            /\ (forall x, head (text c) = Some x -> isspace x = false)
            /\ (forall x, last (text c) = Some x -> isspace x = false)
            /\ 1 <= char_count c) r.
Proof.
  intros Hr. destruct (returns_exit _ _ _ _ Hr) as (n & -> & _).
  apply Forall_lookup. intros i c Hc.
  destruct (after_chunks_inv t chunk_size overlap n) as [_ H].
  destruct (H i c Hc) as (_ & k & _ & _ & _ & Htext & Hne & Hcount).
  split; [exact Hne |]. split; [| split].
  - intros x Hx. rewrite Htext in Hx.
    destruct (strip (slice t (start c) (end_ c))) as [| y rest] eqn:E;
      [discriminate |].
    injection Hx as ->. exact (strip_head _ _ _ E).
  - intros x Hx. rewrite Htext in Hx. exact (strip_last _ _ Hx).
  - rewrite Hcount. unfold len. destruct (text c); [contradiction |].
    simpl. lia.
Qed.

Lemma chunk_text_trimmed_witness :
  Forall (fun c => text c <> [])
    [Chunk (s "abcdefgh") 0 10 0 8; Chunk (s "fgh") 5 15 1 3].
Proof.
  eapply Forall_impl;
    [apply (chunk_text_trimmed (s "abcdefgh") 10 5); exists 2%nat;
     vm_compute; reflexivity |].
  simpl. tauto.
Defined.

(** X3: for [chunk_size >= 1], every returned chunk starts inside the text
    and its recorded window is not empty and at most [chunk_size] wide:
    [0 <= start < len(text)] and [start < end <= start + chunk_size]. *)
Theorem chunk_window_bounds (t : str) (chunk_size overlap : Z)
    (r : list chunk) :
  1 <= chunk_size -> returns t chunk_size overlap r ->
  Forall (fun c =>
            0 <= start c < len t
            /\ start c < end_ c <= start c + chunk_size) r.
Proof.
  intros Hcs Hr. destruct (returns_exit _ _ _ _ Hr) as (n & -> & _ & Hin).
  apply Forall_lookup. intros i c Hc.
  destruct (after_chunks_inv t chunk_size overlap n) as [_ H].
  destruct (H i c Hc) as (_ & k & Hk & Hs & He & _).
  pose proof (cur_start_after_nonneg t chunk_size overlap k Hcs) as H0.
  pose proof (Hin k Hk) as Hlt. rewrite <- Hs in H0, Hlt.
  pose proof (chunk_end_bounds t (start c) chunk_size H0 Hcs) as Hb.
  rewrite <- He in Hb. lia.
Qed.

Lemma chunk_window_bounds_witness :
  Forall (fun c => 0 <= start c < 8)
    [Chunk (s "abcdefgh") 0 10 0 8; Chunk (s "fgh") 5 15 1 3].
Proof.
  eapply Forall_impl;
    [apply (chunk_window_bounds (s "abcdefgh") 10 5);
     [lia | exists 2%nat; vm_compute; reflexivity] |].
  simpl. intros c [H _]. exact H.
Defined.

(** With a non-negative overlap a pass never starts after the end of the
    pass before, so the windows of the first [n] passes cover every offset
    below the cursor. *)
Lemma windows_cover (t : str) (cs ov : Z) (n : nat) (p : Z) :
  1 <= cs -> 0 <= ov ->
  0 <= p < cur_start (after n t cs ov) ->
  exists k, (k < n)%nat
    /\ cur_start (after k t cs ov) <= p
       < chunk_end t (cur_start (after k t cs ov)) cs.
Proof.
  intros Hcs Hov. induction n as [| n IH]; [simpl; lia |].
  intros Hp.
  destruct (Z.lt_ge_cases p (cur_start (after n t cs ov))) as [Hlt | Hge].
  - destruct IH as (k & Hk & Hw); [lia |]. exists k. split; [lia | exact Hw].
  - exists n. split; [lia |]. split; [exact Hge |].
    rewrite after_succ, cur_start_body in Hp. unfold next_start in Hp.
    destruct (Z.ltb_spec
                (chunk_end t (cur_start (after n t cs ov)) cs - ov) 0); lia.
Qed.

Lemma slice_lookup (t : str) (lo hi : Z) (p : nat) (x : ascii) :
  0 <= lo <= Z.of_nat p -> Z.of_nat p < hi ->
  t !! p = Some x -> x ∈ slice t lo hi.
Proof.
  intros Hlo Hhi Hx. pose proof (lookup_lt_Some _ _ _ Hx) as Hlen.
  rewrite slice_inside by lia. unfold len.
  apply list_elem_of_lookup. exists (p - Z.to_nat lo)%nat.
  rewrite lookup_take_lt by lia. rewrite lookup_drop, <- Hx. f_equal. lia.
Qed.

(** X4: with [chunk_size >= 1] and a non-negative overlap, nothing but
    whitespace is left out: when [chunk_text] returns, every character of
    the text that is not whitespace lies in the window [start <= p < end] of
    some returned chunk. *)
Theorem chunk_text_covers (t : str) (chunk_size overlap : Z)
    (r : list chunk) :
  1 <= chunk_size -> 0 <= overlap -> returns t chunk_size overlap r ->
  forall (p : nat) (x : ascii),
    t !! p = Some x -> isspace x = false ->
    exists c, c ∈ r /\ start c <= Z.of_nat p < end_ c.
Proof.
  intros Hcs Hov Hr p x Hx Hns.
  destruct (returns_exit _ _ _ _ Hr) as (n & -> & Hexit & _).
  pose proof (lookup_lt_Some _ _ _ Hx) as Hlen. unfold len in Hexit.
  destruct (windows_cover t chunk_size overlap n (Z.of_nat p) Hcs Hov)
    as (k & Hk & Hw); [lia |].
  pose proof (cur_start_after_nonneg t chunk_size overlap k Hcs) as H0.
  destruct (after_chunks_kept t chunk_size overlap k n Hk)
    as (c & Hc & Hs & He).
  - intros Hnil. apply strip_nil_spaces in Hnil.
    rewrite Forall_forall in Hnil.
    rewrite (Hnil x) in Hns; [discriminate |].
    apply (slice_lookup t _ _ p); [lia | lia | exact Hx].
  - exists c. split; [exact Hc |]. rewrite Hs, He. exact Hw.
Qed.

Lemma chunk_text_covers_witness :
  exists c,
    c ∈ [Chunk (s "abcdefgh") 0 10 0 8; Chunk (s "fgh") 5 15 1 3]
    /\ start c <= Z.of_nat 6 < end_ c.
Proof.
  apply (chunk_text_covers (s "abcdefgh") 10 5 _ ltac:(lia) ltac:(lia))
    with (x := "g"%char).
  - exists 2%nat. vm_compute. reflexivity.
  - reflexivity.
  - reflexivity.
Defined.

(** X5: a text of whitespace only (the empty text included) gives no chunk:
    the loop never emits one, and what [chunk_text] returns is the empty
    list. *)
Theorem chunk_text_whitespace_only (t : str) (chunk_size overlap : Z) :
  Forall (fun c => isspace c = true) t ->
  (forall n, chunks (after n t chunk_size overlap) = [])
  /\ (forall r, returns t chunk_size overlap r -> r = []).
Proof.
  intros Hall.
  assert (Hafter : forall n, chunks (after n t chunk_size overlap) = []).
  { intros n. destruct (chunks (after n t chunk_size overlap))
      as [| c rest] eqn:E; [reflexivity | exfalso].
    destruct (after_chunks_inv t chunk_size overlap n) as [_ H].
    destruct (H 0%nat c) as (_ & k & _ & _ & _ & Htext & Hne & _);
      [now rewrite E |].
    rewrite Htext in Hne.
    destruct (strip_cons_nonspace _ Hne) as (x & Hx & Hns).
    apply slice_subseteq in Hx. rewrite Forall_forall in Hall.
    rewrite (Hall x Hx) in Hns. discriminate. }
  split; [exact Hafter |].
  intros r Hr. destruct (returns_exit _ _ _ _ Hr) as (n & -> & _).
  apply Hafter.
Qed.

Lemma chunk_text_whitespace_only_witness :
  chunks (after 3 (s "     ") 2 1) = [].
Proof.
  refine (proj1 (chunk_text_whitespace_only (s "     ") 2 1 _) 3%nat).
  apply Forall_forall. intros c Hc. apply list_elem_of_In in Hc.
  vm_compute in Hc. intuition (subst; reflexivity).
Defined.

(** The cursor after a pass depends on the cursor before it only. *)
Lemma cursor_repeats_on (t : str) (cs ov : Z) (i j m : nat) :
  cur_start (after j t cs ov) = cur_start (after i t cs ov) ->
  cur_start (after (j + m) t cs ov) = cur_start (after (i + m) t cs ov).
Proof.
  intros H. induction m as [| m IH]; [now rewrite !Nat.add_0_r |].
  rewrite !Nat.add_succ_r, !after_succ, !cur_start_body. now rewrite IH.
Qed.

(** X6: the loop never ends once the cursor comes back to a value it had
    before: if the cursor stays below [len(text)] for the first [j] passes
    and is after pass [j] what it was after an earlier pass [i], then
    [chunk_text] returns nothing, whatever the fuel. *)
Theorem chunk_text_cursor_cycle (t : str) (chunk_size overlap : Z)
    (i j : nat) :
  (i < j)%nat ->
  (forall k, (k <= j)%nat ->
     cur_start (after k t chunk_size overlap) < len t) ->
  cur_start (after j t chunk_size overlap)
  = cur_start (after i t chunk_size overlap) ->
  forall fuel, chunk_text fuel t chunk_size overlap = None.
Proof.
  intros Hij Hbelow Hsame fuel.
  assert (Hall : forall k, cur_start (after k t chunk_size overlap) < len t).
  { intros k. induction k as [k IH] using lt_wf_ind.
    destruct (Nat.le_gt_cases k j) as [Hle | Hgt]; [now apply Hbelow |].
    replace k with (j + (k - j))%nat by lia.
    rewrite (cursor_repeats_on t chunk_size overlap i j (k - j) Hsame).
    apply IH. lia. }
  destruct (chunk_text fuel t chunk_size overlap) as [r |] eqn:E;
    [| reflexivity].
  destruct (returns_exit t chunk_size overlap r) as (n & _ & Hexit & _);
    [now exists fuel |].
  specialize (Hall n). lia.
Qed.

Lemma chunk_text_cursor_cycle_witness :
  chunk_text 1000 sentences 20 5 = None.
Proof.
  apply (chunk_text_cursor_cycle sentences 20 5 2 3); [lia | | reflexivity].
  intros k Hk.
  assert (k = 0 \/ k = 1 \/ k = 2 \/ k = 3)%nat
    as [-> | [-> | [-> | ->]]] by lia; reflexivity.
Defined.

End ChunkerExtras.

(** ** Further properties of [clean_text] *)

Module CleanerExtras.
Import Py PyFacts Cleaner CleanerSpec CleanerFacts ChunkerMore.

Lemma visible_app (u w : str) : visible (u ++ w) = visible u ++ visible w.
Proof. apply List.filter_app. Qed.

Lemma visible_spaces (w : str) :
  Forall (fun c => isspace c = true) w -> visible w = [].
Proof.
  induction 1 as [| c w Hc _ IH]; [reflexivity |].
  simpl. now rewrite Hc.
Qed.

Lemma visible_squeeze (b : bool) (t : str) : visible (squeeze b t) = visible t.
Proof.
  revert b. induction t as [| c t IH]; intros b; [reflexivity |].
  simpl. destruct (isspace c) eqn:E; simpl.
  - destruct b; simpl; apply IH.
  - rewrite E. simpl. f_equal. apply IH.
Qed.

Lemma visible_lstrip (t : str) : visible (lstrip t) = visible t.
Proof.
  destruct (lstrip_suffix t) as (w & Hw & Hall).
  transitivity (visible (w ++ lstrip t)); [| now rewrite <- Hw].
  now rewrite visible_app, (visible_spaces w Hall).
Qed.

Lemma visible_rstrip (t : str) : visible (rstrip t) = visible t.
Proof.
  destruct (rstrip_prefix t) as (w & Hw & Hall).
  transitivity (visible (rstrip t ++ w)); [| now rewrite <- Hw].
  now rewrite visible_app, (visible_spaces w Hall), app_nil_r.
Qed.

Lemma visible_strip (t : str) : visible (strip t) = visible t.
Proof. unfold strip. now rewrite visible_rstrip, visible_lstrip. Qed.

Lemma visible_nil_spaces (t : str) :
  visible t = [] -> Forall (fun c => isspace c = true) t.
Proof.
  induction t as [| c t IH]; [constructor |]. simpl.
  destruct (isspace c) eqn:E; simpl; [| discriminate].
  intros H. constructor; auto.
Qed.

Lemma squeeze_single_spaced (b : bool) (t : str) :
  single_spaced b (squeeze b t) = true.
Proof.
  revert b. induction t as [| c t IH]; intros b; [reflexivity |].
  simpl. destruct (isspace c) eqn:E.
  - destruct b; [apply IH |]. simpl. now rewrite IH.
  - simpl. rewrite E. apply IH.
Qed.

Lemma single_spaced_prefix (b : bool) (u w : str) :
  single_spaced b (u ++ w) = true -> single_spaced b u = true.
Proof.
  revert b. induction u as [| c u IH]; intros b; [reflexivity |].
  simpl. destruct (isspace c).
  - rewrite !andb_true_iff. intros [H1 H2]. split; [exact H1 | eauto].
  - apply IH.
Qed.

Lemma single_spaced_lstrip (b : bool) (t : str) :
  single_spaced b t = true -> single_spaced false (lstrip t) = true.
Proof.
  revert b. induction t as [| c t IH]; intros b; [reflexivity |].
  simpl. destruct (isspace c) eqn:E.
  - rewrite !andb_true_iff. intros [_ H]. eauto.
  - simpl. now rewrite E.
Qed.

Lemma single_spaced_strip (b : bool) (t : str) :
  single_spaced b t = true -> single_spaced false (strip t) = true.
Proof.
  intros H. apply single_spaced_lstrip in H. unfold strip.
  destruct (rstrip_prefix (lstrip t)) as (w & Hw & _).
  rewrite Hw in H. exact (single_spaced_prefix _ _ _ H).
Qed.

Lemma single_spaced_squeeze (b : bool) (t : str) :
  single_spaced b t = true -> squeeze b t = t.
Proof.
  revert b. induction t as [| c t IH]; intros b; [reflexivity |].
  simpl. destruct (isspace c).
  - rewrite !andb_true_iff. intros [[Hb Hc] H].
    destruct b; [discriminate |]. apply Ascii.eqb_eq in Hc. subst c.
    f_equal. now apply IH.
  - intros H. f_equal. now apply IH.
Qed.

Lemma single_spaced_adjacent (b : bool) (t : str) (i : nat) (x y : ascii) :
  single_spaced b t = true ->
  t !! i = Some x -> t !! S i = Some y ->
  isspace x = true -> isspace y = false.
Proof.
  revert b i. induction t as [| c t IH]; intros b i H Hx Hy Hsx;
    [now rewrite lookup_nil in Hx |].
  destruct i as [| i].
  - simpl in Hx. injection Hx as ->. simpl in H. rewrite Hsx in H.
    apply andb_true_iff in H as [_ H].
    destruct t as [| c' t']; [discriminate |]. simpl in Hy.
    injection Hy as ->. simpl in H.
    destruct (isspace y); [discriminate | reflexivity].
  - simpl in H, Hx, Hy. destruct (isspace c).
    + apply andb_true_iff in H as [_ H]. eapply IH; eassumption.
    + eapply IH; eassumption.
Qed.

Lemma lstrip_id (t : str) :
  (forall x, head t = Some x -> isspace x = false) -> lstrip t = t.
Proof.
  destruct t as [| c t]; [reflexivity |]. intros H. simpl.
  now rewrite (H c eq_refl).
Qed.

Lemma strip_id (t : str) :
  (forall x, head t = Some x -> isspace x = false) ->
  (forall x, last t = Some x -> isspace x = false) ->
  strip t = t.
Proof.
  intros Hh Hl. unfold strip, rstrip. rewrite (lstrip_id t Hh).
  rewrite lstrip_id; [apply rev_involutive |].
  intros x Hx. apply Hl. rewrite <- Hx, <- last_rev.
  now rewrite rev_involutive.
Qed.

(** The cleaned text, whatever the input. *)
Lemma clean_text_shape (t : str) :
  single_spaced false (clean_text t) = true
  /\ (forall x, head (clean_text t) = Some x -> isspace x = false)
  /\ (forall x, last (clean_text t) = Some x -> isspace x = false)
  /\ visible (clean_text t) = visible t.
Proof.
  rewrite clean_text_one_substitution. destruct t as [| c t].
  - simpl. repeat split; discriminate.
  - cbn [truthy]. unfold sub_whitespace. split; [| split; [| split]].
    + apply (single_spaced_strip false), squeeze_single_spaced.
    + intros x Hx.
      destruct (strip (squeeze false (c :: t))) as [| y rest] eqn:E;
        [discriminate |].
      injection Hx as ->. exact (strip_head _ _ _ E).
    + intros x Hx. exact (strip_last _ _ Hx).
    + now rewrite visible_strip, visible_squeeze.
Qed.

(** X7: cleaning keeps every character that is not whitespace, in the
    original order, and drops or replaces whitespace only. *)
Theorem clean_text_keeps_visible (t : str) :
  visible (clean_text t) = visible t.
Proof. apply clean_text_shape. Qed.

(** X8: in a cleaned text no whitespace character stands at the beginning
    or at the end, none is followed by another one, and each is a space. *)
Theorem clean_text_normal_form (t : str) :
  (forall x, head (clean_text t) = Some x -> isspace x = false)
  /\ (forall x, last (clean_text t) = Some x -> isspace x = false)
  /\ (forall (i : nat) (x y : ascii),
        clean_text t !! i = Some x -> clean_text t !! S i = Some y ->
        isspace x = true -> x = space /\ isspace y = false).
Proof.
  destruct (clean_text_shape t) as (Hss & Hh & Hl & _).
  split; [exact Hh |]. split; [exact Hl |].
  intros i x y Hx Hy Hsx. split.
  - apply (clean_text_only_spaces t); [| exact Hsx].
    apply list_elem_of_lookup. eauto.
  - exact (single_spaced_adjacent _ _ _ _ _ Hss Hx Hy Hsx).
Qed.

(** X9: cleaning twice is cleaning once. *)
Theorem clean_text_idempotent (t : str) :
  clean_text (clean_text t) = clean_text t.
Proof.
  destruct (clean_text_shape t) as (Hss & Hh & Hl & _).
  rewrite (clean_text_one_substitution (clean_text t)).
  destruct (clean_text t) as [| c v] eqn:E; [reflexivity |].
  cbn [truthy]. unfold sub_whitespace.
  rewrite (single_spaced_squeeze _ _ Hss). now apply strip_id.
Qed.

(** X10: the cleaned text is empty exactly when the input has nothing but
    whitespace (or nothing at all). *)
Theorem clean_text_empty_iff (t : str) :
  clean_text t = [] <-> Forall (fun c => isspace c = true) t.
Proof.
  destruct (clean_text_shape t) as (_ & Hh & _ & Hvis). split.
  - intros E. rewrite E in Hvis. simpl in Hvis.
    now apply visible_nil_spaces.
  - intros Hall. rewrite (visible_spaces t Hall) in Hvis.
    apply visible_nil_spaces in Hvis.
    destruct (clean_text t) as [| c v]; [reflexivity |].
    inversion Hvis as [| ? ? Hc _]. rewrite (Hh c eq_refl) in Hc.
    discriminate.
Qed.

End CleanerExtras.

(** ** Further properties of extraction and page resolution *)

Module ExtractorExtras.
Import Py PyFacts Extractor Pages PagesFacts.

Lemma truthy_cons (t : str) : truthy t = true <-> t <> [].
Proof. destruct t; simpl; split; congruence. Qed.

(** What the page loop builds when no page raises. *)
Lemma read_pages_inv (n : Z) (ps : list page_read)
    (text_content : list str) (pages_info : list page_info) :
  read_pages n ps = inr (text_content, pages_info) ->
  text_content = text <$> pages_info
  /\ Forall (fun p => char_count p = len (text p)) pages_info
  /\ (forall p, p ∈ pages_info ->
        exists (k : nat) (raw : str),
          page p = n + Z.of_nat k
          /\ ps !! k = Some (PageText (Some raw))
          /\ raw <> [] /\ text p = Cleaner.clean_text raw)
  /\ (forall (k : nat) (raw : str),
        ps !! k = Some (PageText (Some raw)) -> raw <> [] ->
        exists p, p ∈ pages_info /\ page p = n + Z.of_nat k)
  /\ (forall (i j : nat) (p q : page_info),
        (i < j)%nat -> pages_info !! i = Some p ->
        pages_info !! j = Some q -> page p < page q).
Proof.
  revert n text_content pages_info.
  induction ps as [| pr ps IH]; intros n tc pi; simpl.
  - intros [= <- <-]. split; [reflexivity |]. split; [constructor |].
    split; [intros p Hp; inversion Hp |].
    split; [intros k raw Hk; now rewrite lookup_nil in Hk |].
    intros i j p q _ Hp. now rewrite lookup_nil in Hp.
  - destruct pr as [raw | e]; [| discriminate].
    destruct (read_pages (n + 1) ps) as [e | [tc' pi']] eqn:E;
      [discriminate |].
    destruct (IH _ _ _ E) as (Htc & Hcount & Hfrom & Hto & Hsorted).
    assert (Hskip :
      (forall p, p ∈ pi' ->
         exists (k : nat) (raw0 : str),
           page p = n + Z.of_nat k
           /\ (PageText raw :: ps) !! k = Some (PageText (Some raw0))
           /\ raw0 <> [] /\ text p = Cleaner.clean_text raw0)).
    { intros p Hp. destruct (Hfrom p Hp) as (k & raw0 & Hpg & Hk & Hrest).
      exists (S k), raw0. split; [lia |]. split; [exact Hk | exact Hrest]. }
    assert (Hkeep :
      (forall (k : nat) (raw0 : str),
         (PageText raw :: ps) !! k = Some (PageText (Some raw0)) ->
         raw0 <> [] -> k <> 0%nat ->
         exists p, p ∈ pi' /\ page p = n + Z.of_nat k)).
    { intros [| k] raw0 Hk Hne H0; [contradiction |].
      destruct (Hto k raw0 Hk Hne) as (p & Hp & Hpg).
      exists p. split; [exact Hp | lia]. }
    destruct raw as [t |]; [destruct (truthy t) eqn:Ht |].
    + intros [= <- <-]. split; [simpl; now f_equal |].
      split; [constructor; [reflexivity | exact Hcount] |].
      split; [| split].
      * intros p [-> | Hp]%elem_of_cons; [| now apply Hskip].
        exists 0%nat, t. simpl. split; [lia |]. split; [reflexivity |].
        split; [now apply truthy_cons | reflexivity].
      * intros [| k] raw0 Hk Hne.
        -- eexists. split; [now left |]. simpl. lia.
        -- destruct (Hkeep (S k) raw0 Hk Hne) as (p & Hp & Hpg); [lia |].
           exists p. split; [now right | exact Hpg].
      * intros [| i] [| j] p q Hij Hp Hq; try lia; simpl in Hp, Hq.
        -- injection Hp as <-. simpl.
           destruct (Hfrom q) as (k & _ & Hpg & _);
             [apply list_elem_of_lookup; eauto | lia].
        -- eapply (Hsorted i j); [lia | eassumption | eassumption].
    + intros [= <- <-].
      split; [exact Htc |]. split; [exact Hcount |].
      split; [exact Hskip |]. split; [| exact Hsorted].
      intros [| k] raw0 Hk Hne; [| now apply (Hkeep (S k) raw0)].
      simpl in Hk. injection Hk as <-. apply truthy_cons in Hne. congruence.
    + intros [= <- <-].
      split; [exact Htc |]. split; [exact Hcount |].
      split; [exact Hskip |]. split; [| exact Hsorted].
      intros [| k] raw0 Hk Hne;
        [discriminate | now apply (Hkeep (S k) raw0)].
Qed.

(** How [extract_text_from_pdf] comes to return a document. *)
Lemma extract_some (path_name : string -> string) (file_path : string)
    (read : pdf_read) (d : document) (out : list string) :
  extract_text_from_pdf path_name file_path read = (Some d, out) ->
  out = []
  /\ exists ps, read = Opened ps
       /\ read_pages 1 ps = inr (text <$> pages d, pages d)
       /\ pages d <> []
       /\ d = Document file_path (path_name file_path)
                (join [newline; newline] (text <$> pages d)) (pages d)
                (Z.of_nat (length (pages d)))
                (len (join [newline; newline] (text <$> pages d))).
Proof.
  destruct read as [e | ps]; simpl; [discriminate |].
  destruct (read_pages 1 ps) as [e | [tc pi]] eqn:E; [discriminate |].
  destruct (read_pages_inv _ _ _ _ E) as (Htc & _). subst tc.
  destruct pi as [| p pi]; [discriminate |]. simpl.
  intros [= <- <-]. split; [reflexivity |]. exists ps. simpl.
  split; [reflexivity |]. split; [exact E |]. split; [discriminate |].
  reflexivity.
Qed.

(** X11: a returned document is consistent with itself: [total_pages] is
    the number of page records, [total_chars] the length of [full_text],
    [full_text] the page texts joined by two newlines, every [char_count]
    the length of its page's text, and nothing is printed. *)
Theorem extract_document_consistent (path_name : string -> string)
    (file_path : string) (read : pdf_read) (d : document)
    (out : list string) :
  extract_text_from_pdf path_name file_path read = (Some d, out) ->
  out = []
  /\ Extractor.file_path d = file_path
  /\ filename d = path_name file_path
  /\ total_pages d = Z.of_nat (length (pages d))
  /\ total_chars d = len (full_text d)
  /\ full_text d = join [newline; newline] (text <$> pages d)
  /\ pages d <> []
  /\ Forall (fun p => char_count p = len (text p)) (pages d).
Proof.
  intros H. destruct (extract_some _ _ _ _ _ H)
    as (Hout & ps & _ & Hread & Hne & Hd).
  destruct (read_pages_inv _ _ _ _ Hread) as (_ & Hcount & _).
  pose proof (f_equal Extractor.file_path Hd) as H1.
  pose proof (f_equal filename Hd) as H2.
  pose proof (f_equal total_pages Hd) as H3.
  pose proof (f_equal total_chars Hd) as H4.
  pose proof (f_equal full_text Hd) as H5.
  simpl in H1, H2, H3, H4, H5. rewrite <- H5 in H4. auto 10.
Qed.

Lemma extract_document_consistent_witness :
  total_chars (Document "a.pdf" "a.pdf" (s "hello")
                 [PageInfo 2 (s "hello") 5] 1 5)
  = len (full_text (Document "a.pdf" "a.pdf" (s "hello")
                      [PageInfo 2 (s "hello") 5] 1 5)).
Proof.
  refine (proj1 (proj2 (proj2 (proj2 (proj2
            (extract_document_consistent (fun p => p) "a.pdf"
               (Opened [PageText None; PageText (Some (s "hello"))])
               (Document "a.pdf" "a.pdf" (s "hello")
                  [PageInfo 2 (s "hello") 5] 1 5) [] _)))))).
  vm_compute. reflexivity.
Defined.

(** X12: the page records of a returned document are exactly the pages of
    the file whose raw text is not empty: each record carries the 1-based
    number of such a page and the cleaned text of that page, every such page
    has a record, and the records are in strictly increasing page order. *)
Theorem extract_pages_exact (path_name : string -> string)
    (file_path : string) (ps : list page_read) (d : document)
    (out : list string) :
  extract_text_from_pdf path_name file_path (Opened ps) = (Some d, out) ->
  (forall p, p ∈ pages d ->
     exists (k : nat) (raw : str),
       page p = Z.of_nat k + 1
       /\ ps !! k = Some (PageText (Some raw))
       /\ raw <> [] /\ text p = Cleaner.clean_text raw)
  /\ (forall (k : nat) (raw : str),
        ps !! k = Some (PageText (Some raw)) -> raw <> [] ->
        exists p, p ∈ pages d /\ page p = Z.of_nat k + 1)
  /\ (forall (i j : nat) (p q : page_info),
        (i < j)%nat -> pages d !! i = Some p -> pages d !! j = Some q ->
        page p < page q).
Proof.
  intros H. destruct (extract_some _ _ _ _ _ H)
    as (_ & ps' & [= <-] & Hread & _).
  destruct (read_pages_inv _ _ _ _ Hread) as (_ & _ & Hfrom & Hto & Hsorted).
  split; [| split; [| exact Hsorted]].
  - intros p Hp. destruct (Hfrom p Hp) as (k & raw & Hpg & Hrest).
    exists k, raw. split; [lia | exact Hrest].
  - intros k raw Hk Hne. destruct (Hto k raw Hk Hne) as (p & Hp & Hpg).
    exists p. split; [exact Hp | lia].
Qed.

Lemma extract_pages_exact_witness :
  exists p,
    p ∈ [PageInfo 2 (s "hello") 5] /\ page p = Z.of_nat 1 + 1.
Proof.
  refine (proj1 (proj2 (extract_pages_exact (fun p => p) "a.pdf"
            [PageText None; PageText (Some (s "hello"))]
            (Document "a.pdf" "a.pdf" (s "hello")
               [PageInfo 2 (s "hello") 5] 1 5) [] _))
            1%nat (s "hello") _ _).
  - vm_compute. reflexivity.
  - reflexivity.
  - discriminate.
Defined.

Lemma span_total_nonneg (ps : list page_info) :
  Forall (fun p => char_count p = len (text p)) ps -> 0 <= span_total ps.
Proof.
  unfold span_total. induction 1 as [| p ps Hp _ IH]; simpl; [lia |].
  pose proof (len_nonneg (text p)). lia.
Qed.

Lemma span_total_take (ps : list page_info) (k : nat) :
  Forall (fun p => char_count p = len (text p)) ps ->
  span_total (take k ps) <= span_total ps.
Proof.
  intros H. rewrite <- (take_drop k ps) at 2. rewrite span_total_app.
  pose proof (span_total_nonneg (drop k ps) (Forall_drop _ _ _ H)). lia.
Qed.

(** Where the text of a page lies in the joined text. *)
Lemma full_text_split (pre : list page_info) (p : page_info)
    (post : list page_info) :
  Forall (fun p => char_count p = len (text p)) pre ->
  exists u w,
    join [newline; newline] (text <$> (pre ++ p :: post)) = u ++ text p ++ w
    /\ len u = span_total pre.
Proof.
  induction 1 as [| a pre Ha _ (u & w & IH & Hu)].
  - destruct post as [| q post].
    + exists [], []. simpl. now rewrite app_nil_r.
    + exists [], ([newline; newline]
                  ++ join [newline; newline] (text <$> (q :: post))).
      split; reflexivity.
  - exists (text a ++ [newline; newline] ++ u), w. split.
    + change (text <$> ((a :: pre) ++ p :: post))
        with (text a :: (text <$> (pre ++ p :: post))).
      destruct (text <$> (pre ++ p :: post)) as [| y l] eqn:E.
      * destruct pre; discriminate.
      * change (join [newline; newline] (text a :: y :: l))
          with (text a ++ [newline; newline]
                ++ join [newline; newline] (y :: l)).
        rewrite IH. now rewrite <- !app_assoc.
    + unfold len in *. rewrite !length_app. unfold span_total in *.
      simpl. rewrite Ha. unfold len. lia.
Qed.

(** X13: page resolution is exact on the text it was built from: in a
    returned document, the offset of the [j]-th character of a page's text
    within [full_text] is the running total of the pages before it plus [j];
    [full_text] has that character there, and [_get_page_for_position]
    resolves the offset, as well as the two separator positions after the
    page's text, to that page's number. *)
Theorem page_offset_resolves (path_name : string -> string)
    (file_path : string) (read : pdf_read) (d : document)
    (out : list string) (pre : list page_info) (p : page_info)
    (post : list page_info) (j : Z) :
  extract_text_from_pdf path_name file_path read = (Some d, out) ->
  pages d = pre ++ p :: post ->
  0 <= j < char_count p + 2 ->
  _get_page_for_position (span_total pre + j) (pages d) = page p
  /\ (j < char_count p ->
      full_text d !! Z.to_nat (span_total pre + j) = text p !! Z.to_nat j).
Proof.
  intros H Hpages Hj. destruct (extract_some _ _ _ _ _ H)
    as (_ & ps & _ & Hread & _ & Hd).
  destruct (read_pages_inv _ _ _ _ Hread) as (_ & Hcount & _).
  rewrite Hpages in Hcount.
  apply Forall_app in Hcount as [Hpre Hrest].
  pose proof (span_total_nonneg pre Hpre) as H0.
  split.
  - rewrite Hpages. unfold _get_page_for_position.
    rewrite (walk_first_exceeding _ 0 pre p post); [reflexivity | |].
    + intros k _. pose proof (span_total_take pre k Hpre). lia.
    + rewrite span_total_app.
      change (span_total [p]) with (char_count p + 2 + 0). lia.
  - intros Hjc. pose proof (f_equal full_text Hd) as Hft. simpl in Hft.
    rewrite Hft, Hpages.
    destruct (full_text_split pre p post Hpre) as (u & w & -> & Hu).
    unfold len in Hu. inversion Hrest as [| ? ? Hp _]. unfold len in Hp.
    rewrite lookup_app_r by lia. rewrite lookup_app_l by lia.
    f_equal. lia.
Qed.

Lemma page_offset_resolves_witness :
  _get_page_for_position (7 + 1)
    [PageInfo 1 (s "hello") 5; PageInfo 3 (s "world") 5] = 3.
Proof.
  refine (proj1 (page_offset_resolves (fun p => p) "a.pdf"
            (Opened [PageText (Some (s "hello")); PageText None;
                     PageText (Some (s "world"))])
            (Document "a.pdf" "a.pdf"
               (s "hello" ++ [newline; newline] ++ s "world")
               [PageInfo 1 (s "hello") 5; PageInfo 3 (s "world") 5] 2 12)
            [] [PageInfo 1 (s "hello") 5] (PageInfo 3 (s "world") 5) [] 1
            _ _ _)).
  - vm_compute. reflexivity.
  - reflexivity.
  - simpl. lia.
Defined.

Lemma walk_some_elem (position acc : Z) (pages : list page_info) (n : Z) :
  walk position acc pages = Some n -> exists p, p ∈ pages /\ n = page p.
Proof.
  revert acc. induction pages as [| x pages IH]; intros acc; simpl;
    [discriminate |].
  destruct (position <? acc + (char_count x + 2)).
  - intros [= <-]. exists x. split; [now left | reflexivity].
  - intros H. destruct (IH _ H) as (p & Hp & ->).
    exists p. split; [now right | reflexivity].
Qed.

Lemma get_page_elem (position : Z) (pages : list page_info) :
  pages <> [] ->
  exists p, p ∈ pages /\ _get_page_for_position position pages = page p.
Proof.
  intros Hne. unfold _get_page_for_position.
  destruct (walk position 0 pages) as [n |] eqn:E.
  - exact (walk_some_elem _ _ _ _ E).
  - destruct (last pages) as [q |] eqn:El.
    + exists q. split; [| reflexivity].
      apply last_Some in El as [l' ->]. apply elem_of_app. right. now left.
    + apply last_None in El. contradiction.
Qed.

(** X14: with a page list that is not empty, the answer is always the
    number of one of the recorded pages, whatever the offset (negative or
    past the end included); the sentinel 1 is for the empty list only. *)
Theorem get_page_is_recorded (position : Z) (pages : list page_info) :
  pages <> [] ->
  exists p, p ∈ pages /\ _get_page_for_position position pages = page p.
Proof. apply get_page_elem. Qed.

Lemma get_page_is_recorded_witness :
  exists p,
    p ∈ [PageInfo 2 (s "hello") 5; PageInfo 3 (s "world") 5]
    /\ _get_page_for_position (-4)
         [PageInfo 2 (s "hello") 5; PageInfo 3 (s "world") 5] = page p.
Proof.
  apply (get_page_is_recorded (-4)
           [PageInfo 2 (s "hello") 5; PageInfo 3 (s "world") 5]).
  discriminate.
Defined.

Lemma walk_monotone (pages : list page_info) :
  forall (acc d position position' : Z),
    (forall p, p ∈ pages -> page p <= d) ->
    (forall (i j : nat) (p q : page_info),
       (i < j)%nat -> pages !! i = Some p -> pages !! j = Some q ->
       page p <= page q) ->
    position <= position' ->
    default d (walk position acc pages)
    <= default d (walk position' acc pages).
Proof.
  induction pages as [| x pages IH]; intros acc d pos pos' Hd Hs Hle; simpl;
    [lia |].
  assert (Htail : forall q, q ∈ pages -> page x <= page q).
  { intros q Hq. apply list_elem_of_lookup in Hq as [j Hj].
    apply (Hs 0%nat (S j) x q); [lia | reflexivity | exact Hj]. }
  destruct (Z.ltb_spec pos (acc + (char_count x + 2)));
    destruct (Z.ltb_spec pos' (acc + (char_count x + 2))); simpl.
  - lia.
  - destruct (walk pos' (acc + (char_count x + 2)) pages) as [n |] eqn:E;
      simpl.
    + destruct (walk_some_elem _ _ _ _ E) as (q & Hq & ->). now apply Htail.
    + apply Hd. now left.
  - lia.
  - apply IH; [| | exact Hle].
    + intros p Hp. apply Hd. now right.
    + intros i j p q Hij Hp Hq. apply (Hs (S i) (S j) p q); [lia | |];
        assumption.
Qed.

(** X15: when the page numbers of the list do not decrease (as in every
    extracted document), the resolved page number does not decrease with
    the offset. *)
Theorem get_page_monotone (pages : list page_info)
    (position position' : Z) :
  (forall (i j : nat) (p q : page_info),
     (i < j)%nat -> pages !! i = Some p -> pages !! j = Some q ->
     page p <= page q) ->
  position <= position' ->
  _get_page_for_position position pages
  <= _get_page_for_position position' pages.
Proof.
  intros Hs Hle. unfold _get_page_for_position.
  set (d := match last pages with Some q => page q | None => 1 end).
  change (default d (walk position 0 pages)
          <= default d (walk position' 0 pages)).
  apply walk_monotone; [| exact Hs | exact Hle].
  intros p Hp. unfold d. destruct (last pages) as [q |] eqn:El.
  - apply last_Some in El as [l' ->].
    apply elem_of_app in Hp as [Hp | Hp].
    + apply list_elem_of_lookup in Hp as [i Hi].
      apply (Hs i (length l') p q).
      * apply lookup_lt_Some in Hi. lia.
      * now apply lookup_app_l_Some.
      * now rewrite lookup_app_r, Nat.sub_diag by lia.
    + apply list_elem_of_singleton in Hp. subst p. lia.
  - apply last_None in El. subst pages. inversion Hp.
Qed.

Lemma get_page_monotone_witness :
  _get_page_for_position 3
    [PageInfo 2 (s "hello") 5; PageInfo 3 (s "world") 5]
  <= _get_page_for_position 9
       [PageInfo 2 (s "hello") 5; PageInfo 3 (s "world") 5].
Proof.
  apply (get_page_monotone
           [PageInfo 2 (s "hello") 5; PageInfo 3 (s "world") 5] 3 9);
    [| lia].
  intros [| [| i]] [| [| [| j]]] p q Hij Hp Hq; simpl in Hp, Hq;
    try lia; try discriminate.
  injection Hp as <-. injection Hq as <-. simpl. lia.
Defined.

End ExtractorExtras.

(** ** Records ids, [process_document] and [process_directory] *)

Module ProcessorExtras.
Import Vectorizer Processor.

(** X16: the record id tells the source and the chunk index, and nothing
    else: two metadata dicts get the same id exactly when they agree on
    [source] and [chunk_index]; the file path, the page and the text play
    no part, so chunks of two files of the same name share their ids. *)
Theorem record_id_inj (m1 m2 : metadata) (i : string) :
  record_id m1 = Some i ->
  (record_id m2 = Some i
   <-> source m2 = source m1 /\ chunk_index m2 = chunk_index m1).
Proof.
  unfold record_id. intros H1.
  destruct (source m1) as [s1 |]; [| discriminate].
  destruct (chunk_index m1) as [i1 |]; [| discriminate].
  simpl in H1. injection H1 as <-. split.
  - destruct (source m2) as [s2 |]; [| discriminate].
    destruct (chunk_index m2) as [i2 |]; [| discriminate].
    simpl. intros [= E].
    change (s2 +:+ String "_" (pretty i2) = s1 +:+ String "_" (pretty i1))
      in E.
    apply (RagFacts.split_at_last _ (fun c => negb (Ascii.eqb c "_"))) in E.
    + destruct E as [-> E]. apply (inj pretty) in E. now subst.
    + reflexivity.
    + apply (RagFacts.str_page_no_underscore (Rag.PageNo i2)).
    + apply (RagFacts.str_page_no_underscore (Rag.PageNo i1)).
  - intros [-> ->]. reflexivity.
Qed.

Lemma record_id_inj_witness :
  record_id (Metadata (Some "a.pdf") (Some "/other/a.pdf") (Some 7)
               (Some 1) (Some 9) (Some 3))
  = Some "a.pdf_1".
Proof.
  apply (record_id_inj
           (Metadata (Some "a.pdf") (Some "/d/a.pdf") (Some 1) (Some 1)
              (Some 2) (Some 6))); [reflexivity |].
  split; reflexivity.
Defined.

Lemma record_id_none (m : metadata) :
  record_id m = None <-> source m = None \/ chunk_index m = None.
Proof.
  unfold record_id. destruct (source m), (chunk_index m); simpl;
    split; intros H; try discriminate; auto; destruct H; discriminate.
Qed.

Lemma mapM_record_id_none (ms : list metadata) :
  mapM record_id ms = None <-> Exists (fun m => record_id m = None) ms.
Proof.
  induction ms as [| m ms IH]; simpl.
  - split; [discriminate | inversion 1].
  - destruct (record_id m) as [i |] eqn:E; simpl.
    + destruct (mapM record_id ms) as [ids |]; simpl.
      * split; [discriminate |]. intros H. inversion H; subst.
        -- congruence.
        -- apply IH in H1. discriminate.
      * split; [| reflexivity]. intros _. right. now apply IH.
    + split; [| reflexivity]. intros _. now left.
Qed.

(** X17: [add_documents] fails with the [KeyError] of line 42 exactly when
    the list is not empty and some chunk's metadata lacks [source] or
    [chunk_index]; the empty list is accepted and changes nothing. *)
Theorem add_documents_key_error (embedding : Type)
    (encode : list string -> list embedding)
    (chunks : list processed_chunk)
    (collection : gmap string (stored_record embedding)) :
  (add_documents embedding encode chunks collection = None
   <-> chunks <> []
       /\ Exists (fun c => source (chunk_metadata c) = None
                           \/ chunk_index (chunk_metadata c) = None) chunks)
  /\ add_documents embedding encode [] collection = Some collection.
Proof.
  split; [| reflexivity].
  destruct chunks as [| c chunks].
  - simpl. split; [discriminate | intros [H _]; contradiction].
  - remember (c :: chunks) as cs eqn:Hcs.
    assert (Hunfold :
      add_documents embedding encode cs collection
      = ids ← mapM record_id (chunk_metadata <$> cs);
        Some (collection_add embedding (encode (text <$> cs))
                (text <$> cs) (chunk_metadata <$> cs) ids collection)).
    { subst cs. reflexivity. }
    rewrite Hunfold.
    assert (Hne : cs <> []) by (subst cs; discriminate). clear Hunfold Hcs.
    assert (Hex :
      Exists (fun m => record_id m = None) (chunk_metadata <$> cs)
      <-> Exists (fun c => source (chunk_metadata c) = None
                           \/ chunk_index (chunk_metadata c) = None) cs).
    { rewrite Exists_fmap. apply Exists_proper; [| reflexivity].
      intros x. apply record_id_none. }
    rewrite <- Hex, <- mapM_record_id_none.
    destruct (mapM record_id (chunk_metadata <$> cs)) as [ids |]; simpl.
    + split; [discriminate | intros [_ H]; discriminate].
    + split; auto.
Qed.

Section WithSettings.
Variable path_name : string -> string.
Variables chunk_size chunk_overlap : Z.

Local Abbreviation process_document :=
  (Processor.process_document path_name chunk_size chunk_overlap).
Local Abbreviation process_directory :=
  (Processor.process_directory path_name chunk_size chunk_overlap).

Lemma length_string_of_list_ascii (t : list ascii) :
  String.length (string_of_list_ascii t) = length t.
Proof. induction t as [| c t IH]; simpl; [reflexivity | now rewrite IH]. Qed.

(** How [process_document] comes to return a list. *)
Lemma process_document_some (fuel : nat) (file_path : string)
    (read : Extractor.pdf_read) (l : list processed_chunk) :
  process_document fuel file_path read = Some (Some l) ->
  exists d out chunks,
    Extractor.extract_text_from_pdf path_name file_path read = (Some d, out)
    /\ Chunker.returns (Extractor.full_text d) chunk_size chunk_overlap chunks
    /\ l = process_chunk d (Z.of_nat (length chunks)) <$> chunks.
Proof.
  unfold Processor.process_document.
  destruct (Extractor.extract_text_from_pdf path_name file_path read)
    as [[d |] out] eqn:E; simpl; [| discriminate].
  destruct (Chunker.chunk_text fuel (Extractor.full_text d) chunk_size
              chunk_overlap) as [chunks |] eqn:Ec; simpl; [| discriminate].
  intros [= <-]. exists d, out, chunks.
  split; [reflexivity |]. split; [now exists fuel | reflexivity].
Qed.

(** X18: in the list [process_document] returns, the chunk at position [i]
    carries the file's name as [source], the path as given, [chunk_index =
    i], the length of the list as [total_chunks], the length of its own
    (non-empty) text as [char_count], and as [page] the number of one of the
    pages recorded for the document. *)
Theorem process_document_metadata (fuel : nat) (file_path : string)
    (read : Extractor.pdf_read) (l : list processed_chunk) :
  process_document fuel file_path read = Some (Some l) ->
  exists d,
    (Extractor.extract_text_from_pdf path_name file_path read).1 = Some d
    /\ forall (i : nat) (c : processed_chunk),
         l !! i = Some c ->
         source (chunk_metadata c) = Some (path_name file_path)
         /\ Vectorizer.file_path (chunk_metadata c) = Some file_path
         /\ chunk_index (chunk_metadata c) = Some (Z.of_nat i)
         /\ total_chunks (chunk_metadata c) = Some (Z.of_nat (length l))
         /\ char_count (chunk_metadata c)
            = Some (Z.of_nat (String.length (text c)))
         /\ text c <> ""
         /\ exists p, p ∈ Extractor.pages d
              /\ page (chunk_metadata c) = Some (Extractor.page p).
Proof.
  intros H. destruct (process_document_some _ _ _ _ H)
    as (d & out & chunks & He & Hr & ->).
  exists d. split; [now rewrite He |].
  destruct (ExtractorExtras.extract_some _ _ _ _ _ He)
    as (_ & ps & _ & _ & Hne & Hd).
  intros i c Hc. rewrite list_lookup_fmap in Hc.
  destruct (chunks !! i) as [ch |] eqn:Ech; [| discriminate].
  simpl in Hc. injection Hc as <-. simpl.
  destruct (ChunkerMore.returns_exit _ _ _ _ Hr) as (n & Hn & _).
  rewrite Hn in Ech.
  destruct (ChunkerMore.after_chunks_inv (Extractor.full_text d) chunk_size
              chunk_overlap n) as [_ Hinv].
  destruct (Hinv i ch Ech) as (Hidx & k & _ & _ & _ & _ & Hne' & Hcount).
  rewrite length_fmap.
  split; [rewrite Hd; reflexivity |]. split; [rewrite Hd; reflexivity |].
  split; [now rewrite Hidx |]. split; [reflexivity |].
  split; [now rewrite Hcount, length_string_of_list_ascii |].
  split.
  - destruct (Chunker.text ch); [contradiction | discriminate].
  - destruct (ExtractorExtras.get_page_elem (Chunker.start ch)
                (Extractor.pages d) Hne) as (p & Hp & Hpg).
    exists p. split; [exact Hp | now rewrite Hpg].
Qed.

(** X19: the record ids of the list [process_document] returns are the
    file's name followed by [_0], [_1], ... in order; they are pairwise
    distinct, so line 42 never raises on such a list and no chunk of the
    document takes the id of another. *)
Theorem process_document_ids (fuel : nat) (file_path : string)
    (read : Extractor.pdf_read) (l : list processed_chunk) :
  process_document fuel file_path read = Some (Some l) ->
  exists ids,
    mapM record_id (chunk_metadata <$> l) = Some ids
    /\ ids = (fun i : nat => path_name file_path +:+ "_" +:+ pretty (Z.of_nat i))
             <$> seq 0 (length l)
    /\ NoDup ids.
Proof.
  intros H. destruct (process_document_some _ _ _ _ H)
    as (d & out & chunks & He & Hr & ->).
  destruct (ExtractorExtras.extract_some _ _ _ _ _ He)
    as (_ & ps & _ & _ & _ & Hd).
  destruct (ChunkerMore.returns_exit _ _ _ _ Hr) as (n & Hn & _).
  destruct (ChunkerMore.after_chunks_inv (Extractor.full_text d) chunk_size
              chunk_overlap n) as [_ Hinv].
  rewrite <- Hn in Hinv. rewrite length_fmap.
  eexists. split; [| split; [reflexivity |]].
  - apply mapM_Some. apply Forall2_same_length_lookup.
    split; [now rewrite !length_fmap, length_seq |].
    intros i m y Hm Hy. rewrite !list_lookup_fmap in Hm.
    destruct (chunks !! i) as [ch |] eqn:Ech; [| discriminate].
    simpl in Hm. injection Hm as <-.
    rewrite list_lookup_fmap in Hy.
    destruct (seq 0 (length chunks) !! i) as [j |] eqn:Ej; [| discriminate].
    apply lookup_seq in Ej as [-> _]. simpl in Hy. injection Hy as <-.
    unfold record_id. simpl.
    rewrite (proj1 (Hinv i ch Ech)), Hd. reflexivity.
  - apply NoDup_fmap_2; [| apply NoDup_seq].
    intros i j E. apply (inj (String.app _)) in E.
    apply (inj (String.app _)) in E. apply (inj pretty) in E. lia.
Qed.

(** X20: a file from which extraction returns nothing leaves no trace in
    the result of [process_directory]: the chunks returned are those of the
    other files, in the same order, as if the file were not there. *)
Theorem process_directory_skips (fuel : nat)
    (before after : list (string * Extractor.pdf_read))
    (file_path : string) (read : Extractor.pdf_read) :
  (Extractor.extract_text_from_pdf path_name file_path read).1 = None ->
  process_directory fuel (before ++ (file_path, read) :: after)
  = process_directory fuel (before ++ after).
Proof.
  intros Hnone.
  assert (Hdoc : process_document fuel file_path read = Some None).
  { unfold Processor.process_document. now rewrite Hnone. }
  assert (Hdir : forall files,
            process_directory fuel files
            = results ← mapM (fun f => process_document fuel f.1 f.2) files;
              Some (concat (gathered <$> results))).
  { intros [| f files]; reflexivity. }
  rewrite !Hdir. clear Hdir.
  induction before as [| f before IH]; simpl.
  - rewrite Hdoc. simpl.
    destruct (mapM (fun f => process_document fuel f.1 f.2) after);
      reflexivity.
  - destruct (process_document fuel f.1 f.2) as [r |]; simpl;
      [| reflexivity].
    destruct (mapM (fun f => process_document fuel f.1 f.2)
                (before ++ (file_path, read) :: after)) as [rs |];
      destruct (mapM (fun f => process_document fuel f.1 f.2)
                  (before ++ after)) as [rs' |];
      simpl in *; try discriminate; [| reflexivity].
    injection IH as IH. do 2 f_equal. exact IH.
Qed.

End WithSettings.

Lemma process_document_metadata_witness :
  exists d,
    (Extractor.extract_text_from_pdf (fun p => p) "a.pdf"
       (Extractor.Opened [Extractor.PageText (Some (Py.s "hello there"))])).1
    = Some d.
Proof.
  destruct (process_document_metadata (fun p => p) 800 150 1 "a.pdf"
              (Extractor.Opened
                 [Extractor.PageText (Some (Py.s "hello there"))])
              [ProcessedChunk "hello there"
                 (Metadata (Some "a.pdf") (Some "a.pdf") (Some 1) (Some 0)
                    (Some 1) (Some 11))])
    as (d & Hd & _); [vm_compute; reflexivity |].
  exists d. exact Hd.
Defined.

Lemma process_document_ids_witness :
  NoDup ((fun i : nat => "a.pdf" +:+ "_" +:+ pretty (Z.of_nat i))
         <$> seq 0 1).
Proof.
  destruct (process_document_ids (fun p => p) 800 150 1 "a.pdf"
              (Extractor.Opened
                 [Extractor.PageText (Some (Py.s "hello there"))])
              [ProcessedChunk "hello there"
                 (Metadata (Some "a.pdf") (Some "a.pdf") (Some 1) (Some 0)
                    (Some 1) (Some 11))])
    as (ids & _ & -> & Hnd); [vm_compute; reflexivity |].
  exact Hnd.
Defined.

Lemma process_directory_skips_witness :
  Processor.process_directory (fun p => p) 800 150 1
    [("b.pdf", Extractor.OpenRaises "no such file");
     ("a.pdf", Extractor.Opened
                 [Extractor.PageText (Some (Py.s "hello there"))])]
  = Processor.process_directory (fun p => p) 800 150 1
      [("a.pdf", Extractor.Opened
                   [Extractor.PageText (Some (Py.s "hello there"))])].
Proof.
  apply (process_directory_skips (fun p => p) 800 150 1 []). reflexivity.
Defined.

End ProcessorExtras.

(** ** The inventory of stored documents *)

Module InventoryFacts.
Import Vectorizer Inventory.

Lemma first_seen_snoc (ms : list metadata) (m : metadata) :
  first_seen (ms ++ [m])
  = if decide (get_source m ∈ first_seen ms) then first_seen ms
    else first_seen ms ++ [get_source m].
Proof. unfold first_seen. now rewrite foldl_app. Qed.

Lemma first_seen_spec (ms : list metadata) :
  NoDup (first_seen ms)
  /\ forall k, k ∈ first_seen ms <-> k ∈ get_source <$> ms.
Proof.
  induction ms as [| m ms [IHn IHe]] using rev_ind.
  - split; [constructor | reflexivity].
  - rewrite first_seen_snoc, fmap_app. simpl.
    destruct (decide (get_source m ∈ first_seen ms)) as [Hin | Hout].
    + split; [exact IHn |]. intros k. rewrite elem_of_app, <- IHe.
      rewrite list_elem_of_singleton. split; [now left |].
      intros [H | ->]; assumption.
    + split.
      * apply NoDup_app. split; [exact IHn |]. split; [| apply NoDup_singleton].
        intros x Hx ->%list_elem_of_singleton. contradiction.
      * intros k. rewrite !elem_of_app, IHe. reflexivity.
Qed.

Lemma records_of_snoc (k : string) (ms : list metadata) (m : metadata) :
  records_of k (ms ++ [m])
  = records_of k ms ++ (if decide (get_source m = k) then [m] else []).
Proof.
  unfold records_of. rewrite filter_app, filter_cons, filter_nil.
  now destruct (decide (get_source m = k)).
Qed.

Lemma records_of_nil_iff (k : string) (ms : list metadata) :
  records_of k ms = [] <-> k ∉ get_source <$> ms.
Proof.
  unfold records_of. split.
  - intros H Hin. apply list_elem_of_fmap in Hin as (m & -> & Hm).
    exact (filter_nil_not_elem_of _ _ m H eq_refl Hm).
  - intros H. destruct (filter _ ms) as [| m rest] eqn:E; [reflexivity |].
    exfalso. apply H.
    assert (Hm : m ∈ filter (fun m => get_source m = k) ms)
      by (rewrite E; now left).
    apply list_elem_of_filter in Hm as [<- Hm].
    apply list_elem_of_fmap. eauto.
Qed.

Lemma expected_snoc_other (ms : list metadata) (m : metadata) (k : string) :
  get_source m <> k -> expected (ms ++ [m]) k = expected ms k.
Proof.
  intros H. unfold expected. rewrite records_of_snoc.
  destruct (decide (get_source m = k)); [contradiction |].
  now rewrite app_nil_r.
Qed.

Lemma expected_snoc_seen (ms : list metadata) (m : metadata) :
  records_of (get_source m) ms <> [] ->
  expected (ms ++ [m]) (get_source m)
  = count_record m (expected ms (get_source m)).
Proof.
  intros Hne. unfold expected, count_record. rewrite records_of_snoc.
  destruct (decide (get_source m = get_source m)); [| contradiction].
  destruct (records_of (get_source m) ms) as [| m0 rest]; [contradiction |].
  set (rs := m0 :: rest).
  assert (H1 : head (rs ++ [m]) = head rs) by reflexivity.
  assert (H2 : Z.of_nat (length (rs ++ [m])) = Z.of_nat (length rs) + 1)
    by (rewrite length_app; simpl; lia).
  assert (H3 : list_to_set (omap page (rs ++ [m]))
               =@{gset Z} match page m with
                          | Some p => {[p]} ∪ list_to_set (omap page rs)
                          | None => list_to_set (omap page rs)
                          end).
  { rewrite omap_app, list_to_set_app_L.
    change (omap page [m]) with (option_list (page m)).
    destruct (page m) as [p |]; simpl.
    - rewrite (right_id_L ∅ (∪)). apply (comm_L (∪)).
    - now rewrite (right_id_L ∅ (∪)). }
  rewrite H1, H2, H3. reflexivity.
Qed.

Lemma expected_snoc_new (ms : list metadata) (m : metadata) :
  records_of (get_source m) ms = [] ->
  expected (ms ++ [m]) (get_source m)
  = count_record m
      (SourceInfo (get_source m) (default "" (file_path m)) 0 ∅).
Proof.
  intros Hnil. unfold expected, count_record. rewrite records_of_snoc, Hnil.
  destruct (decide (get_source m = get_source m)); [| contradiction].
  simpl. f_equal. destruct (page m); reflexivity.
Qed.

Lemma fmap_ext_elem {A B : Type} (f g : A -> B) (l : list A) :
  (forall x, x ∈ l -> f x = g x) -> f <$> l = g <$> l.
Proof.
  induction l as [| x l IH]; intros H; [reflexivity |]. simpl. f_equal.
  - apply H. now left.
  - apply IH. intros y Hy. apply H. now right.
Qed.

Lemma update_fmap (s : string) (f : source_info -> source_info)
    (g : string -> source_info) (keys : list string) :
  NoDup keys ->
  update s f ((fun k => (k, g k)) <$> keys)
  = (fun k => (k, if decide (k = s) then f (g k) else g k)) <$> keys.
Proof.
  induction 1 as [| k keys Hk Hnd IH]; [reflexivity |]. simpl.
  destruct (decide (k = s)) as [-> | Hne].
  - f_equal. apply fmap_ext_elem. intros x Hx.
    destruct (decide (x = s)) as [-> | _]; [contradiction | reflexivity].
  - f_equal. exact IH.
Qed.

Lemma update_snoc (s : string) (f : source_info -> source_info)
    (d : list (string * source_info)) (v : source_info) :
  s ∉ d.*1 -> update s f (d ++ [(s, v)]) = d ++ [(s, f v)].
Proof.
  induction d as [| [k w] d IH]; intros Hs; simpl.
  - now destruct (decide (s = s)).
  - destruct (decide (k = s)) as [-> | Hne].
    + exfalso. apply Hs. now left.
    + rewrite IH; [reflexivity |]. intros H. apply Hs. now right.
Qed.

Lemma fmap_fst_pairs (g : string -> source_info) (keys : list string) :
  ((fun k => (k, g k)) <$> keys).*1 = keys.
Proof.
  induction keys as [| k keys IH]; [reflexivity |].
  simpl. f_equal. exact IH.
Qed.

(** The dict after the loop: one entry per source, in the order of first
    appearance, holding what the records of that source add up to. *)
Lemma unique_sources_spec (ms : list metadata) :
  foldl list_body [] ms = (fun k => (k, expected ms k)) <$> first_seen ms.
Proof.
  induction ms as [| m ms IH] using rev_ind; [reflexivity |].
  destruct (first_seen_spec ms) as [Hnd Helem].
  rewrite foldl_app. simpl. rewrite IH. unfold list_body.
  rewrite fmap_fst_pairs, first_seen_snoc.
  destruct (decide (get_source m ∈ first_seen ms)) as [Hin | Hout].
  - rewrite update_fmap by exact Hnd. apply fmap_ext_elem. intros k Hk.
    f_equal. destruct (decide (k = get_source m)) as [-> | Hne].
    + symmetry. apply expected_snoc_seen.
      intros Hnil. apply records_of_nil_iff in Hnil. apply Hnil.
      now apply Helem.
    + symmetry. apply expected_snoc_other. congruence.
  - rewrite update_snoc by (now rewrite fmap_fst_pairs).
    rewrite fmap_app. simpl. f_equal.
    + apply fmap_ext_elem. intros k Hk. f_equal. symmetry.
      apply expected_snoc_other. intros <-. contradiction.
    + do 2 f_equal. symmetry. apply expected_snoc_new.
      apply records_of_nil_iff. intros H. apply Hout. now apply Helem.
Qed.

Lemma list_documents_spec (ms : list metadata) :
  list_documents ms = (fun k => summarise (expected ms k)) <$> first_seen ms.
Proof.
  unfold list_documents. rewrite unique_sources_spec.
  rewrite <- !list_fmap_compose. reflexivity.
Qed.

Lemma list_documents_elem (ms : list metadata) (e : document_summary) :
  e ∈ list_documents ms ->
  e = summarise (expected ms (doc_source e))
  /\ records_of (doc_source e) ms <> [].
Proof.
  rewrite list_documents_spec. intros (k & -> & Hk)%list_elem_of_fmap.
  simpl. split; [reflexivity |].
  intros Hnil. apply records_of_nil_iff in Hnil. apply Hnil.
  now apply first_seen_spec.
Qed.

End InventoryFacts.

(** ** What [list_documents] reports *)

Module InventoryExtras.
Import Vectorizer Inventory InventoryFacts.

Lemma list_documents_sources (ms : list metadata) :
  doc_source <$> list_documents ms = first_seen ms.
Proof.
  rewrite list_documents_spec, <- list_fmap_compose.
  rewrite <- (list_fmap_id (first_seen ms)) at 2.
  apply fmap_ext_elem. reflexivity.
Qed.

Lemma foldr_min_spec (p : Z) (ps : list Z) :
  foldr Z.min p ps ∈ p :: ps
  /\ forall q, q ∈ p :: ps -> foldr Z.min p ps <= q.
Proof.
  induction ps as [| x ps [IHin IHle]]; simpl.
  - split; [now left |]. intros q ->%list_elem_of_singleton. lia.
  - split.
    + destruct (Z.min_spec x (foldr Z.min p ps)) as [[_ ->] | [_ ->]].
      * right. now left.
      * apply elem_of_cons in IHin as [-> | H]; [now left |].
        right. now right.
    + intros q Hq. apply elem_of_cons in Hq as [-> | Hq].
      * specialize (IHle p ltac:(now left)). lia.
      * apply elem_of_cons in Hq as [-> | Hq]; [lia |].
        specialize (IHle q ltac:(now right)). lia.
Qed.

Lemma foldr_max_spec (p : Z) (ps : list Z) :
  foldr Z.max p ps ∈ p :: ps
  /\ forall q, q ∈ p :: ps -> q <= foldr Z.max p ps.
Proof.
  induction ps as [| x ps [IHin IHle]]; simpl.
  - split; [now left |]. intros q ->%list_elem_of_singleton. lia.
  - split.
    + destruct (Z.max_spec x (foldr Z.max p ps)) as [[_ ->] | [_ ->]].
      * apply elem_of_cons in IHin as [-> | H]; [now left |].
        right. now right.
      * right. now left.
    + intros q Hq. apply elem_of_cons in Hq as [-> | Hq].
      * specialize (IHle p ltac:(now left)). lia.
      * apply elem_of_cons in Hq as [-> | Hq]; [lia |].
        specialize (IHle q ltac:(now right)). lia.
Qed.

Lemma range_not_na (lo hi : Z) : pretty lo +:+ "-" +:+ pretty hi <> "N/A".
Proof.
  intros E. pose proof (RagFacts.pretty_Z_int lo) as H.
  destruct (pretty lo) as [| c x]; [discriminate E |].
  rewrite RagFacts.app_cons in E. injection E as -> _. discriminate H.
Qed.

Lemma format_page_range_spec (pages : gset Z) :
  (pages = ∅ /\ format_page_range pages = "N/A")
  \/ exists lo hi, lo ∈ pages /\ hi ∈ pages
       /\ (forall p, p ∈ pages -> lo <= p <= hi)
       /\ format_page_range pages = pretty lo +:+ "-" +:+ pretty hi.
Proof.
  unfold format_page_range. destruct (elements pages) as [| p ps] eqn:E.
  - left. split; [| reflexivity]. apply leibniz_equiv. now apply elements_empty_iff.
  - right. destruct (foldr_min_spec p ps) as [Hlo Hle].
    destruct (foldr_max_spec p ps) as [Hhi Hge].
    exists (foldr Z.min p ps), (foldr Z.max p ps).
    rewrite <- E in Hlo, Hhi, Hle, Hge.
    repeat split.
    + now apply elem_of_elements.
    + now apply elem_of_elements.
    + apply Hle. now apply elem_of_elements.
    + apply Hge. now apply elem_of_elements.
Qed.

Lemma records_of_head (k : string) (ms : list metadata) (m0 : metadata) :
  head (records_of k ms) = Some m0 ->
  exists ms1 ms2, ms = ms1 ++ m0 :: ms2 /\ get_source m0 = k
                  /\ k ∉ get_source <$> ms1.
Proof.
  unfold records_of. induction ms as [| m ms IH]; [discriminate |].
  rewrite filter_cons. destruct (decide (get_source m = k)) as [Hk | Hk].
  - intros [= ->]. exists [], ms. repeat split; [exact Hk |].
    apply not_elem_of_nil.
  - intros H. destruct (IH H) as (ms1 & ms2 & -> & Hm0 & Hout).
    exists (m :: ms1), ms2. repeat split; [exact Hm0 |].
    rewrite fmap_cons. intros [E | Hin]%elem_of_cons; [congruence | auto].
Qed.

Lemma count_sum_snoc (ms : list metadata) (m : metadata) (keys : list string) :
  NoDup keys ->
  foldr Z.add 0 ((fun k => Z.of_nat (length (records_of k (ms ++ [m])))) <$> keys)
  = foldr Z.add 0 ((fun k => Z.of_nat (length (records_of k ms))) <$> keys)
    + (if decide (get_source m ∈ keys) then 1 else 0).
Proof.
  induction 1 as [| k keys Hk Hnd IH].
  - simpl. destruct (decide (get_source m ∈ [])) as [H | _]; [| reflexivity].
    now apply not_elem_of_nil in H.
  - rewrite !fmap_cons. simpl foldr. rewrite IH, records_of_snoc, length_app.
    destruct (decide (get_source m = k)) as [E | E].
    + subst k. destruct (decide (get_source m ∈ keys)); [contradiction |].
      destruct (decide (get_source m ∈ get_source m :: keys)) as [_ | H];
        [simpl; lia |]. exfalso. apply H. now left.
    + destruct (decide (get_source m ∈ keys)) as [Hin | Hout].
      * destruct (decide (get_source m ∈ k :: keys)) as [_ | H];
          [simpl; lia |]. exfalso. apply H. now right.
      * destruct (decide (get_source m ∈ k :: keys)) as [H | _];
          [| simpl; lia].
        apply elem_of_cons in H as [H | H]; [congruence | contradiction].
Qed.

(** X21: [list_documents] reports every source of the stored records
    exactly once (a record without a source counts under "unknown"), and
    storing one more record never reorders the report: the sources reported
    before stay in front. *)
Theorem list_documents_one_per_source (ms : list metadata) :
  NoDup (doc_source <$> list_documents ms)
  /\ (forall k, k ∈ doc_source <$> list_documents ms <-> k ∈ get_source <$> ms)
  /\ (forall m, (doc_source <$> list_documents ms)
                `prefix_of` (doc_source <$> list_documents (ms ++ [m]))).
Proof.
  rewrite list_documents_sources. destruct (first_seen_spec ms) as [Hnd He].
  split; [exact Hnd |]. split; [exact He |].
  intros m. rewrite list_documents_sources, first_seen_snoc.
  destruct (decide (get_source m ∈ first_seen ms)).
  - reflexivity.
  - now exists [get_source m].
Qed.

(** X22: the [total_chunks] of a reported document is the number of stored
    records carrying its source, and it is at least one. *)
Theorem list_documents_total_chunks (ms : list metadata)
    (e : document_summary) :
  e ∈ list_documents ms ->
  doc_total_chunks e
  = Z.of_nat (length (filter (fun m => get_source m = doc_source e) ms))
  /\ 1 <= doc_total_chunks e.
Proof.
  intros [He Hne]%list_documents_elem.
  assert (Hc : doc_total_chunks e
               = Z.of_nat (length (records_of (doc_source e) ms)))
    by (now rewrite He at 1).
  split; [exact Hc |]. rewrite Hc.
  destruct (records_of (doc_source e) ms); [contradiction | simpl; lia].
Qed.

(** X23: the [total_chunks] of the reported documents add up to the number
    of stored records: every record is counted under exactly one
    document. *)
Theorem list_documents_chunks_sum (ms : list metadata) :
  foldr Z.add 0 (doc_total_chunks <$> list_documents ms)
  = Z.of_nat (length ms).
Proof.
  rewrite list_documents_spec, <- list_fmap_compose.
  change (doc_total_chunks ∘ (fun k => summarise (expected ms k)))
    with (fun k => Z.of_nat (length (records_of k ms))).
  induction ms as [| m ms IH] using rev_ind; [reflexivity |].
  destruct (first_seen_spec ms) as [Hnd _].
  rewrite first_seen_snoc, length_app.
  destruct (decide (get_source m ∈ first_seen ms)) as [Hin | Hout].
  - rewrite count_sum_snoc by exact Hnd.
    destruct (decide (get_source m ∈ first_seen ms)); [| contradiction].
    rewrite IH. simpl. lia.
  - rewrite fmap_app, foldr_app. simpl.
    rewrite records_of_snoc, length_app.
    destruct (decide (get_source m = get_source m)); [| contradiction].
    assert (Hnil : records_of (get_source m) ms = []).
    { apply records_of_nil_iff. intros H. apply Hout.
      now apply first_seen_spec. }
    rewrite Hnil. simpl.
    assert (Hshift : forall (l : list Z) (a : Z),
               foldr Z.add a l = foldr Z.add 0 l + a).
    { induction l as [| x l IHl]; intros a; simpl; [lia |].
      rewrite IHl. lia. }
    rewrite Hshift, count_sum_snoc by exact Hnd.
    destruct (decide (get_source m ∈ first_seen ms)); [contradiction |].
    rewrite IH. lia.
Qed.

(** X24: the [page_range] of a reported document is "N/A" exactly when no
    record of its source carries a page; otherwise it is "lo-hi", where lo
    and hi are the smallest and the largest page among the records of that
    source. *)
Theorem list_documents_page_range (ms : list metadata)
    (e : document_summary) :
  e ∈ list_documents ms ->
  (page_range e = "N/A"
   <-> forall m, m ∈ ms -> get_source m = doc_source e -> page m = None)
  /\ ((exists m, m ∈ ms /\ get_source m = doc_source e /\ page m <> None) ->
      exists m_lo m_hi lo hi,
        m_lo ∈ ms /\ get_source m_lo = doc_source e /\ page m_lo = Some lo
        /\ m_hi ∈ ms /\ get_source m_hi = doc_source e /\ page m_hi = Some hi
        /\ (forall m p, m ∈ ms -> get_source m = doc_source e ->
                        page m = Some p -> lo <= p <= hi)
        /\ page_range e = pretty lo +:+ "-" +:+ pretty hi).
Proof.
  intros [He _]%list_documents_elem.
  set (k := doc_source e) in *.
  assert (Hr : page_range e
               = format_page_range
                   (list_to_set (omap page (records_of k ms))))
    by (now rewrite He at 1).
  assert (Hp : forall p, p ∈ (list_to_set (omap page (records_of k ms))
                              : gset Z)
               <-> exists m, m ∈ ms /\ get_source m = k /\ page m = Some p).
  { intros p. rewrite elem_of_list_to_set, list_elem_of_omap. unfold records_of.
    split.
    - intros (m & [Hk Hm]%list_elem_of_filter & Hpg). eauto.
    - intros (m & Hm & Hk & Hpg). exists m. split; [| exact Hpg].
      now apply list_elem_of_filter. }
  destruct (format_page_range_spec (list_to_set (omap page (records_of k ms))))
    as [[Hemp Hna] | (lo & hi & Hlo & Hhi & Hbounds & Hfmt)].
  - assert (Hnone : forall m, m ∈ ms -> get_source m = k -> page m = None).
    { intros m Hm Hk. destruct (page m) as [p |] eqn:Hpg; [| reflexivity].
      exfalso. apply (not_elem_of_empty (C := gset Z) p). rewrite <- Hemp.
      apply Hp. eauto. }
    split.
    + split; [intros _; exact Hnone | intros _; now rewrite Hr].
    + intros (m & Hm & Hk & Hpg). exfalso. apply Hpg. now apply Hnone.
  - apply Hp in Hlo as (m_lo & Hlo1 & Hlo2 & Hlo3).
    apply Hp in Hhi as (m_hi & Hhi1 & Hhi2 & Hhi3).
    split.
    + split.
      * intros Hna. rewrite Hr, Hfmt in Hna. now apply range_not_na in Hna.
      * intros Hnone. rewrite (Hnone m_lo Hlo1 Hlo2) in Hlo3. discriminate.
    + intros _. exists m_lo, m_hi, lo, hi. repeat split; try assumption.
      * apply Hbounds, Hp. eauto.
      * apply Hbounds, Hp. eauto.
      * now rewrite Hr.
Qed.

(** X25: the [file_path] of a reported document is the one of the first
    stored record that carries its source ('' if that record has none);
    later records of the same source never change it. *)
Theorem list_documents_file_path (ms : list metadata)
    (e : document_summary) :
  e ∈ list_documents ms ->
  exists ms1 m0 ms2,
    ms = ms1 ++ m0 :: ms2
    /\ get_source m0 = doc_source e
    /\ (doc_source e ∉ get_source <$> ms1)
    /\ doc_file_path e = default "" (file_path m0).
Proof.
  intros [He Hne]%list_documents_elem.
  destruct (records_of (doc_source e) ms) as [| m0 rest] eqn:E;
    [contradiction |].
  destruct (records_of_head (doc_source e) ms m0) as (ms1 & ms2 & H1 & H2 & H3);
    [now rewrite E |].
  exists ms1, m0, ms2. repeat split; try assumption.
  rewrite He at 1. unfold summarise, expected. simpl. now rewrite E.
Qed.

Lemma list_documents_total_chunks_witness :
  1 <= doc_total_chunks (DocumentSummary "a.pdf" "docs/a.pdf" 2 "2-5").
Proof.
  refine (proj2 (list_documents_total_chunks demo_metadatas
                   (DocumentSummary "a.pdf" "docs/a.pdf" 2 "2-5") _)).
  apply list_elem_of_In. vm_compute. left. reflexivity.
Defined.

Lemma list_documents_page_range_witness :
  page_range (DocumentSummary "a.pdf" "docs/a.pdf" 2 "2-5") = "N/A"
  <-> forall m, m ∈ demo_metadatas ->
        get_source m
        = doc_source (DocumentSummary "a.pdf" "docs/a.pdf" 2 "2-5") ->
        page m = None.
Proof.
  refine (proj1 (list_documents_page_range demo_metadatas
                   (DocumentSummary "a.pdf" "docs/a.pdf" 2 "2-5") _)).
  apply list_elem_of_In. vm_compute. left. reflexivity.
Defined.

Lemma list_documents_file_path_witness :
  exists ms1 m0 ms2,
    demo_metadatas = ms1 ++ m0 :: ms2
    /\ get_source m0
       = doc_source (DocumentSummary "a.pdf" "docs/a.pdf" 2 "2-5")
    /\ (doc_source (DocumentSummary "a.pdf" "docs/a.pdf" 2 "2-5")
        ∉ get_source <$> ms1)
    /\ doc_file_path (DocumentSummary "a.pdf" "docs/a.pdf" 2 "2-5")
       = default "" (file_path m0).
Proof.
  apply (list_documents_file_path demo_metadatas
           (DocumentSummary "a.pdf" "docs/a.pdf" 2 "2-5")).
  apply list_elem_of_In. vm_compute. left. reflexivity.
Defined.

End InventoryExtras.

(** ** The citations and the prompt of a query *)

Module RagExtras.
Import Rag RagFacts Prompt.

Lemma kept_after_pairs (rs : list search_result) :
  forall seen : list (string * page_ref),
    NoDup (source_pair <$> kept_after seen rs)
    /\ (forall pr, pr ∈ source_pair <$> kept_after seen rs -> pr ∉ seen)
    /\ (forall r, r ∈ rs ->
          source_pair r ∈ seen
          \/ source_pair r ∈ source_pair <$> kept_after seen rs)
    /\ (length (kept_after seen rs) <= length rs)%nat.
Proof.
  induction rs as [| r rs IH]; intros seen; simpl.
  - repeat split.
    + constructor.
    + intros pr H. now apply elem_of_nil in H.
    + intros r0 H. now apply elem_of_nil in H.
    + lia.
  - destruct (decide (source_pair r ∈ seen)) as [Hin | Hout].
    + destruct (IH seen) as (Hnd & Hfresh & Hcover & Hlen).
      repeat split; [exact Hnd | exact Hfresh | | lia].
      intros r0 [-> | H0]%elem_of_cons; [now left | now apply Hcover].
    + destruct (IH (seen ++ [source_pair r])) as (Hnd & Hfresh & Hcover & Hlen).
      rewrite fmap_cons. repeat split.
      * constructor; [| exact Hnd]. intros H. apply (Hfresh _ H).
        apply elem_of_app. right. now left.
      * intros pr [-> | H]%elem_of_cons; [exact Hout |].
        intros Hs. apply (Hfresh _ H). apply elem_of_app. now left.
      * intros r0 [-> | H0]%elem_of_cons; [right; now left |].
        destruct (Hcover r0 H0) as [[H | H]%elem_of_app | H].
        -- now left.
        -- apply list_elem_of_singleton in H. right. rewrite H. now left.
        -- right. now right.
      * simpl. lia.
Qed.

Lemma concat_parts_nonempty (i : Z) (t : string) (parts : list string) :
  String.concat blank_line (context_part i t :: parts) <> "".
Proof.
  unfold context_part. rewrite app_cons. simpl.
  destruct parts; [discriminate |]. rewrite app_cons. discriminate.
Qed.

(** X26: the [sources] of a query cite each [(source, page)] pair at most
    once, cite the pair of every result that went into the context, and are
    never more than the results. *)
Theorem query_sources_distinct (results : list search_result) :
  NoDup ((fun s => (source s, page s)) <$> sources (query results))
  /\ (forall r, r ∈ results ->
        exists s, s ∈ sources (query results)
                  /\ source s = get_source (metadata r)
                  /\ page s = get_page (metadata r))
  /\ (length (sources (query results)) <= length results)%nat.
Proof.
  rewrite query_sources, first_occurrences_kept.
  destruct (kept_after_pairs results []) as (Hnd & _ & Hcover & Hlen).
  rewrite <- list_fmap_compose. split; [exact Hnd |]. split.
  - intros r Hr. destruct (Hcover r Hr) as [H | H].
    + now apply elem_of_nil in H.
    + apply list_elem_of_fmap in H as (r' & Hpair & Hr').
      exists (source_of r'). split.
      * apply list_elem_of_fmap. eauto.
      * unfold source_pair in Hpair. injection Hpair as H1 H2.
        simpl. now split.
  - now rewrite length_fmap.
Qed.

(** X27: [format_context_for_prompt] returns the empty string exactly when
    the search returned no result; with at least one result the prompt is
    never empty, whatever the texts of the results are. *)
Theorem format_context_empty_iff (query_text : string)
    (results : list search_result) :
  format_context_for_prompt query_text results = "" <-> results = [].
Proof.
  split.
  - destruct results as [| r rs]; [reflexivity |]. intros H. exfalso.
    unfold format_context_for_prompt in H.
    assert (Hctx : context (query (r :: rs)) <> "").
    { unfold query. cbn [context].
      destruct (query_loop_spec (r :: rs) init 1 []) as [Hp _].
      - intros pr. simpl. rewrite elem_of_empty, elem_of_nil. tauto.
      - rewrite Hp. apply concat_parts_nonempty. }
    destruct (context (query (r :: rs))) as [| c x]; [now apply Hctx |].
    unfold excerpts_header in H. rewrite !app_cons in H. discriminate H.
  - intros ->. reflexivity.
Qed.

End RagExtras.

(** ** Batching *)

Module BatchingFacts.
Import Batching.

Lemma batches_prefix {A : Type} (size : nat) (l : list A) (m : nat) :
  concat ((fun k => batch_at size l (k * size)) <$> seq 0 m)
  = take (m * size) l.
Proof.
  induction m as [| m IH]; [reflexivity |].
  rewrite seq_S, fmap_app, concat_app, IH. simpl. rewrite app_nil_r.
  unfold batch_at. rewrite take_take_drop. f_equal. lia.
Qed.

Lemma div_up_covers (n size : nat) :
  (0 < size)%nat -> (n <= (n + size - 1) / size * size)%nat.
Proof.
  intros Hs. pose proof (Nat.div_mod_eq (n + size - 1) size) as H.
  pose proof (Nat.mod_upper_bound (n + size - 1) size ltac:(lia)) as Hm.
  nia.
Qed.

Lemma div_up_tight (n size k : nat) :
  (0 < size)%nat -> (k < (n + size - 1) / size)%nat -> (k * size < n)%nat.
Proof.
  intros Hs Hk. pose proof (Nat.div_mod_eq (n + size - 1) size) as H.
  pose proof (Nat.mod_upper_bound (n + size - 1) size ltac:(lia)) as Hm.
  nia.
Qed.

Lemma batches_of_spec {A : Type} (size : nat) (l : list A) :
  (0 < size)%nat ->
  concat (batches_of size l) = l
  /\ Forall (fun b => (1 <= length b <= size)%nat) (batches_of size l)
  /\ length (batches_of size l) = ((length l + size - 1) / size)%nat.
Proof.
  intros Hs. unfold batches_of, range_step. rewrite <- list_fmap_compose.
  split; [| split].
  - change (batch_at size l ∘ (fun k => (k * size)%nat))
      with (fun k => batch_at size l (k * size)).
    rewrite batches_prefix. apply take_ge. now apply div_up_covers.
  - apply Forall_fmap, Forall_forall. intros k Hk.
    apply elem_of_seq in Hk as [_ Hk]. simpl in Hk.
    pose proof (div_up_tight (length l) size k Hs Hk) as Hlt.
    unfold batch_at. simpl. rewrite length_take, length_drop. lia.
  - now rewrite length_fmap, length_seq.
Qed.

(** X28: the batches that [process_all_documents] hands to [add_documents]
    are consecutive pieces of the chunk list: put together they give back
    the whole list in order (no chunk is dropped or submitted twice), every
    batch holds between 1 and 100 chunks, and there are ceil(n / 100) of
    them. *)
Theorem vectorize_batches_partition {A : Type} (all_chunks : list A) :
  concat (vectorize_batches all_chunks) = all_chunks
  /\ Forall (fun b => (1 <= length b <= 100)%nat)
       (vectorize_batches all_chunks)
  /\ length (vectorize_batches all_chunks)
     = ((length all_chunks + 99) / 100)%nat.
Proof.
  destruct (batches_of_spec batch_size all_chunks) as (Hc & Hf & Hl);
    [unfold batch_size; lia |].
  split; [exact Hc |]. split; [exact Hf |].
  unfold vectorize_batches. rewrite Hl. unfold batch_size. f_equal. lia.
Qed.

End BatchingFacts.

(** ** The scraper's downloads *)

Module ScraperFacts.
Import Scraper.

Lemma select_invariant (files : list file_info) :
  let st := foldl select_body (Selection [] ∅) files in
  (forall u, u ∈ seen_urls st <-> u ∈ url <$> unique_files st)
  /\ NoDup (url <$> unique_files st)
  /\ (forall fi, fi ∈ files -> url fi ∈ url <$> unique_files st)
  /\ (forall fi, fi ∈ unique_files st ->
        exists pre post, files = pre ++ fi :: post
                         /\ url fi ∉ url <$> pre).
Proof.
  induction files as [| f files IH] using rev_ind; cbv zeta.
  - simpl. repeat split.
    + intros H. now apply elem_of_empty in H.
    + intros H. now apply elem_of_nil in H.
    + constructor.
    + intros fi H. now apply elem_of_nil in H.
    + intros fi H. now apply elem_of_nil in H.
  - cbv zeta in IH. destruct IH as (Hseen & Hnd & Hcover & Hfirst).
    rewrite foldl_app. cbn [foldl].
    set (st := foldl select_body (Selection [] ∅) files) in *.
    unfold select_body.
    destruct (decide (url f ∈ seen_urls st)) as [Hin | Hout].
    + split; [exact Hseen |]. split; [exact Hnd |]. split.
      * intros fi [H | H]%elem_of_app; [now apply Hcover |].
        apply list_elem_of_singleton in H as ->. now apply Hseen.
      * intros fi Hfi. destruct (Hfirst fi Hfi) as (pre & post & -> & Hpre).
        exists pre, (post ++ [f]). split; [| exact Hpre].
        now rewrite <- app_assoc.
    + simpl. rewrite fmap_app. simpl. split; [| split; [| split]].
      * intros u. rewrite elem_of_union, elem_of_singleton, elem_of_app,
          list_elem_of_singleton, Hseen. tauto.
      * apply NoDup_app. split; [exact Hnd |]. split; [| apply NoDup_singleton].
        intros u Hu ->%list_elem_of_singleton. apply Hout. now apply Hseen.
      * intros fi [H | H]%elem_of_app; apply elem_of_app.
        -- left. now apply Hcover.
        -- right. apply list_elem_of_singleton in H as ->. now left.
      * intros fi [Hfi | Hfi]%elem_of_app.
        -- destruct (Hfirst fi Hfi) as (pre & post & -> & Hpre).
           exists pre, (post ++ [f]). split; [| exact Hpre].
           now rewrite <- app_assoc.
        -- apply list_elem_of_singleton in Hfi as ->.
           exists files, []. split; [reflexivity |].
           intros (fi & Hu & Hfi)%list_elem_of_fmap. apply Hout, Hseen.
           rewrite Hu. now apply Hcover.
Qed.

Lemma files_to_download_take (max_documents : Z) (files : list file_info) :
  0 <= max_documents ->
  files_to_download max_documents files
  = take (Z.to_nat max_documents)
      (unique_files (foldl select_body (Selection [] ∅) files)).
Proof.
  intros Hmax. unfold files_to_download, prefix_slice.
  destruct (decide (max_documents < 0)); [lia |].
  destruct files; [| reflexivity]. simpl. now destruct (Z.to_nat max_documents).
Qed.

(** X29: with a limit [max_documents >= 0], [download_all_files] downloads
    no URL twice and at most [max_documents] files; each downloaded entry is
    the first entry of the crawl result with its URL; and a URL of the crawl
    result is left out only when the limit is reached. *)
Theorem files_to_download_spec (max_documents : Z) (files : list file_info) :
  0 <= max_documents ->
  NoDup (url <$> files_to_download max_documents files)
  /\ Z.of_nat (length (files_to_download max_documents files))
     <= max_documents
  /\ (forall fi, fi ∈ files_to_download max_documents files ->
        exists pre post, files = pre ++ fi :: post
                         /\ url fi ∉ url <$> pre)
  /\ (forall fi, fi ∈ files ->
        url fi ∈ url <$> files_to_download max_documents files
        \/ Z.of_nat (length (files_to_download max_documents files))
           = max_documents).
Proof.
  intros Hmax. rewrite files_to_download_take by exact Hmax.
  destruct (select_invariant files) as (_ & Hnd & Hcover & Hfirst).
  set (unique := unique_files (foldl select_body (Selection [] ∅) files)) in *.
  split; [| split; [| split]].
  - rewrite fmap_take. apply (sublist_NoDup _ _ Hnd), sublist_take.
  - rewrite length_take. lia.
  - intros fi Hfi. apply Hfirst. revert Hfi. apply subseteq_take.
  - intros fi Hfi.
    destruct (decide (length unique <= Z.to_nat max_documents)%nat) as [H | H].
    + left. rewrite take_ge by exact H. now apply Hcover.
    + right. rewrite length_take. lia.
Qed.

Lemma files_to_download_spec_witness :
  NoDup (url <$> files_to_download 1
           [FileInfo "http://x/a.pdf" "a.pdf" ".pdf" "documents" None;
            FileInfo "http://x/a.pdf" "a.pdf" ".pdf" "documents" None;
            FileInfo "http://x/b.pdf" "b.pdf" ".pdf" "documents" None]).
Proof.
  refine (proj1 (files_to_download_spec 1
            [FileInfo "http://x/a.pdf" "a.pdf" ".pdf" "documents" None;
             FileInfo "http://x/a.pdf" "a.pdf" ".pdf" "documents" None;
             FileInfo "http://x/b.pdf" "b.pdf" ".pdf" "documents" None] _)).
  lia.
Defined.

Lemma string_length_app (x y : string) :
  String.length (x +:+ y) = (String.length x + String.length y)%nat.
Proof.
  induction x as [| c x IH]; [reflexivity |].
  change (String c x +:+ y) with (String c (x +:+ y)).
  cbn [String.length]. now rewrite IH.
Qed.

Lemma string_app_inv_tail (x y z : string) : x +:+ z = y +:+ z -> x = y.
Proof.
  revert y. induction x as [| c x IH]; intros [| d y] E.
  - reflexivity.
  - exfalso. apply (f_equal String.length) in E.
    change ("" +:+ z) with z in E.
    change (String d y +:+ z) with (String d (y +:+ z)) in E.
    cbn [String.length] in E. rewrite string_length_app in E. lia.
  - exfalso. apply (f_equal String.length) in E.
    change ("" +:+ z) with z in E.
    change (String c x +:+ z) with (String c (x +:+ z)) in E.
    cbn [String.length] in E. rewrite string_length_app in E. lia.
  - change (String c (x +:+ z) = String d (y +:+ z)) in E.
    injection E as -> E. f_equal. now apply IH.
Qed.

Section FreeName.
Variable path_exists : string -> bool.
Variables original_stem original_suffix : string.

Abbreviation new_name := (Scraper.new_name original_stem original_suffix).
Abbreviation free_name_loop :=
  (Scraper.free_name_loop path_exists original_stem original_suffix).
Abbreviation free_name :=
  (Scraper.free_name path_exists original_stem original_suffix).

Lemma new_name_inj (j k : Z) : new_name j = new_name k -> j = k.
Proof.
  unfold Scraper.new_name. intros E.
  apply String.app_inj in E. apply String.app_inj in E.
  apply string_app_inv_tail in E. now apply (inj pretty) in E.
Qed.

(** If the candidates numbered [c], ..., [c + n - 1] all exist, they are [n]
    different names of the directory. *)
Lemma taken_names (n : nat) (c : Z) (existing : list string) :
  (forall k, path_exists (new_name k) = true -> new_name k ∈ existing) ->
  (forall j, c <= j < c + Z.of_nat n -> path_exists (new_name j) = true) ->
  (n <= length existing)%nat.
Proof.
  intros Hfin Hall.
  set (l := (fun i => new_name (c + Z.of_nat i)) <$> seq 0 n).
  assert (Hlen : length l = n) by (unfold l; now rewrite length_fmap, length_seq).
  rewrite <- Hlen. apply submseteq_length, NoDup_submseteq.
  - unfold l. apply NoDup_fmap_2; [| apply NoDup_seq].
    intros i j E. apply new_name_inj in E. lia.
  - intros x (i & -> & Hi)%list_elem_of_fmap. apply elem_of_seq in Hi.
    apply Hfin, Hall. lia.
Qed.

Lemma free_name_loop_spec (fuel : nat) :
  forall (name : string) (counter : Z) (existing : list string) (n : nat),
    (forall k, path_exists (new_name k) = true -> new_name k ∈ existing) ->
    (forall j, counter - Z.of_nat n <= j < counter ->
               path_exists (new_name j) = true) ->
    (length existing + 2 <= fuel + n)%nat ->
    exists found,
      free_name_loop fuel name counter = Some found
      /\ path_exists found = false
      /\ (path_exists name = false -> found = name)
      /\ (path_exists name = true ->
          exists k, counter <= k /\ found = new_name k
                    /\ forall j, counter <= j < k ->
                                 path_exists (new_name j) = true).
Proof.
  induction fuel as [| fuel IH]; intros name counter existing n Hfin Hall Hfuel.
  - exfalso.
    pose proof (taken_names n (counter - Z.of_nat n) existing Hfin) as H.
    assert (n <= length existing)%nat; [| simpl in Hfuel; lia].
    apply H. intros j Hj. apply Hall. lia.
  - simpl. destruct (path_exists name) eqn:Hname.
    + destruct (path_exists (new_name counter)) eqn:Hc.
      * destruct (IH (new_name counter) (counter + 1) existing (S n) Hfin)
          as (found & Hrun & Hfree & _ & Hnum).
        { intros j Hj. destruct (decide (j = counter)) as [-> | Hne];
            [exact Hc | apply Hall; lia]. }
        { lia. }
        destruct (Hnum Hc) as (k & Hk & Hfound & Hbelow).
        exists found. split; [exact Hrun |]. split; [exact Hfree |].
        split; [discriminate |]. intros _. exists k.
        split; [lia |]. split; [exact Hfound |].
        intros j Hj. destruct (decide (j = counter)) as [-> | Hne];
          [exact Hc | apply Hbelow; lia].
      * exists (new_name counter). destruct fuel as [| fuel'].
        { exfalso.
          pose proof (taken_names n (counter - Z.of_nat n) existing Hfin) as H.
          assert (n <= length existing)%nat; [| lia].
          apply H. intros j Hj. apply Hall. lia. }
        simpl. rewrite Hc. split; [reflexivity |]. split; [reflexivity |].
        split; [discriminate |]. intros _. exists counter.
        split; [lia |]. split; [reflexivity |]. intros j Hj. lia.
    + exists name. repeat split; try assumption. discriminate.
Qed.

(** X30: in a directory with finitely many entries [download_file] always
    finds a name to write to, after at most one test per entry and two
    more: the name it writes to does not exist before the download, so no
    file is overwritten; it is the file's own name when that is free, and
    otherwise the numbered name with the smallest free counter from 1. *)
Theorem free_name_found (existing : list string) (filename : string) :
  (forall k, path_exists (new_name k) = true -> new_name k ∈ existing) ->
  exists found,
    free_name (length existing + 2) filename = Some found
    /\ path_exists found = false
    /\ (path_exists filename = false -> found = filename)
    /\ (path_exists filename = true ->
        exists k, 1 <= k /\ found = new_name k
                  /\ forall j, 1 <= j < k -> path_exists (new_name j) = true).
Proof.
  intros Hfin. unfold Scraper.free_name.
  apply (free_name_loop_spec (length existing + 2) filename 1 existing 0 Hfin).
  - intros j Hj. simpl in Hj. lia.
  - lia.
Qed.

End FreeName.

Lemma free_name_found_witness :
  exists found,
    Scraper.free_name
      (fun name => bool_decide (name ∈ ["a.pdf"; "a_1.pdf"])) "a" ".pdf"
      (length ["a.pdf"; "a_1.pdf"] + 2) "a.pdf" = Some found
    /\ bool_decide (found ∈ ["a.pdf"; "a_1.pdf"]) = false
    /\ (bool_decide ("a.pdf" ∈ ["a.pdf"; "a_1.pdf"]) = false ->
        found = "a.pdf")
    /\ (bool_decide ("a.pdf" ∈ ["a.pdf"; "a_1.pdf"]) = true ->
        exists k, 1 <= k /\ found = Scraper.new_name "a" ".pdf" k
                  /\ forall j, 1 <= j < k ->
                       bool_decide (Scraper.new_name "a" ".pdf" j
                                    ∈ ["a.pdf"; "a_1.pdf"]) = true).
Proof.
  apply (free_name_found
           (fun name => bool_decide (name ∈ ["a.pdf"; "a_1.pdf"]))
           "a" ".pdf" ["a.pdf"; "a_1.pdf"] "a.pdf").
  intros k H. apply bool_decide_eq_true in H. exact H.
Defined.

End ScraperFacts.
